(** * cisco_gnmi.client: the XPath-to-gNMI-path parser

    A shallow embedding of [Client.parse_xpath_to_gnmi_path]
    (src/cisco_gnmi/client.py) together with the pieces of the Python
    runtime it relies on: [str.strip], truthiness, [isinstance] against
    [six.string_types], and [xml.etree.ElementPath.xpath_tokenizer_re]
    used through [findall].

    Python strings are modelled as [string] (code points below 256), the
    protobuf [map<string, string>] field [PathElem.key] as a
    [gmap string string], and a raised [Exception] as the [Raise] branch
    of [result], tagged by the raise site. *)

From Stdlib Require Import Ascii String List ZArith Lia Bool.
From stdpp Require Import base option gmap strings list.
Import ListNotations.

Local Open Scope string_scope.
Local Open Scope list_scope.

(** ** Python runtime *)

Module Py.

(** The values a caller can pass for [xpath] and [origin]. *)
Inductive obj : Type :=
  | None_
  | Bool (b : bool)
  | Int (z : Z)
  | Str (s : string)
  | Bytes (b : list ascii).

(** [bool(s)] for a [str]. *)
Definition nonempty (s : string) : bool :=
  match s with
  | EmptyString => false
  | String _ _ => true
  end.

(** [bool(x)]. *)
Definition truthy (x : obj) : bool :=
  match x with
  | None_ => false
  | Bool b => b
  | Int z => negb (Z.eqb z 0)
  | Str s => nonempty s
  | Bytes b => match b with [] => false | _ :: _ => true end
  end.

(** [isinstance(x, six.string_types)]. *)
Definition is_string (x : obj) : bool :=
  match x with
  | Str _ => true
  | _ => false
  end.

(** [c in chars]. *)
Fixpoint in_chars (c : ascii) (chars : string) : bool :=
  match chars with
  | EmptyString => false
  | String d chars' => Ascii.eqb c d || in_chars c chars'
  end.

Fixpoint lstrip (chars s : string) : string :=
  match s with
  | EmptyString => EmptyString
  | String c s' => if in_chars c chars then lstrip chars s' else s
  end.

Fixpoint rstrip (chars s : string) : string :=
  match s with
  | EmptyString => EmptyString
  | String c s' =>
      match rstrip chars s' with
      | EmptyString => if in_chars c chars then EmptyString else String c EmptyString
      | r => String c r
      end
  end.

(** [s.strip(chars)]. *)
Definition strip (chars s : string) : string := rstrip chars (lstrip chars s).

(** What the regular expression class [\s] matches in a [str] pattern:
    the code points for which [str.isspace] holds (below 256). *)
Definition is_space (c : ascii) : bool :=
  let n := nat_of_ascii c in
  (Nat.leb 9 n && Nat.leb n 13) || (Nat.leb 28 n && Nat.leb n 32)
  || Nat.eqb n 133 || Nat.eqb n 160.

End Py.

(** ** The tokenizer: [xpath_tokenizer_re.findall]

    [client.py] imports the compiled pattern from the standard library
    module [xml.etree.ElementPath].  Written with DQ for the
    double-quote character, the pattern (as of Python 3.8) is
<<
    ( '[^']*' | DQ[^DQ]*DQ | :: | //? | \.\. | \(\) | != | [/.*:\[\]\(\)@=] )
    | ( (?:\{[^}]+\})? [^/\[\]\(\)@!=\s]+ )
    | \s+
>>
    (spaces added for reading).  It has two groups, so [findall] yields
    one pair [(group 1, group 2)] per match, an unmatched group being the
    empty string.  A matcher below returns the matched text and the rest
    of the input; alternatives are tried in the order of the pattern. *)

Module Tokenizer.

Definition token : Type := string * string.

Definition dquote : ascii := ascii_of_nat 34.
Definition squote : ascii := ascii_of_nat 39.

(** The longest prefix whose characters satisfy [p], and what follows. *)
Fixpoint span (p : ascii -> bool) (s : string) : string * string :=
  match s with
  | EmptyString => (EmptyString, EmptyString)
  | String c s' =>
      if p c then let (a, b) := span p s' in (String c a, b)
      else (EmptyString, s)
  end.

(** A literal alternative such as [::]. *)
Fixpoint match_lit (lit s : string) : option (string * string) :=
  match lit with
  | EmptyString => Some (EmptyString, s)
  | String c lit' =>
      match s with
      | String d s' =>
          if Ascii.eqb c d then
            match match_lit lit' s' with
            | Some (m, r) => Some (String c m, r)
            | None => None
            end
          else None
      | EmptyString => None
      end
  end.

(** ['[^']*'] and its double-quoted twin. *)
Definition match_quoted (q : ascii) (s : string) : option (string * string) :=
  match s with
  | String c s' =>
      if Ascii.eqb c q then
        match span (fun x => negb (Ascii.eqb x q)) s' with
        | (body, String _ rest) => Some (String q (body +:+ String q EmptyString), rest)
        | (_, EmptyString) => None
        end
      else None
  | EmptyString => None
  end.

(** [//?], greedy. *)
Definition match_slashes (s : string) : option (string * string) :=
  match match_lit "//" s with
  | Some r => Some r
  | None => match_lit "/" s
  end.

(** [[/.*:\[\]\(\)@=]]. *)
Definition punct : string := "/.*:[]()@=".

Definition match_punct (s : string) : option (string * string) :=
  match s with
  | String c r => if Py.in_chars c punct then Some (String c EmptyString, r) else None
  | EmptyString => None
  end.

(** The first alternative that matches. *)
Fixpoint first_match (alts : list (string -> option (string * string))) (s : string)
  : option (string * string) :=
  match alts with
  | [] => None
  | m :: alts' =>
      match m s with
      | Some r => Some r
      | None => first_match alts' s
      end
  end.

Definition group1_alts : list (string -> option (string * string)) :=
  [ match_quoted squote; match_quoted dquote; match_lit "::"; match_slashes;
    match_lit ".."; match_lit "()"; match_lit "!="; match_punct ].

Definition match_group1 : string -> option (string * string) := first_match group1_alts.

(** [[^/\[\]\(\)@!=\s]]. *)
Definition tag_char (c : ascii) : bool :=
  negb (Py.in_chars c "/[]()@!=" || Py.is_space c).

(** [[^/\[\]\(\)@!=\s]+]. *)
Definition match_tag (s : string) : option (string * string) :=
  match span tag_char s with
  | (EmptyString, _) => None
  | (t, r) => Some (t, r)
  end.

(** [\{[^}]+\}[^/\[\]\(\)@!=\s]+]: group 2 with its optional prefix taken. *)
Definition match_braced (s : string) : option (string * string) :=
  match s with
  | String c s1 =>
      if Ascii.eqb c "{" then
        match span (fun x => negb (Ascii.eqb x "}")) s1 with
        | (String n ns, String _ r) =>
            match match_tag r with
            | Some (t, rest) => Some (String "{" (String n ns +:+ String "}" t), rest)
            | None => None
            end
        | _ => None
        end
      else None
  | EmptyString => None
  end.

(** Group 2: the prefix is tried first, then the pattern without it. *)
Definition match_group2 : string -> option (string * string) :=
  first_match [ match_braced; match_tag ].

(** [\s+]. *)
Definition match_space (s : string) : option (string * string) :=
  match span Py.is_space s with
  | (EmptyString, _) => None
  | (w, r) => Some (w, r)
  end.

(** One match of the whole pattern at the start of [s]: the pair
    [findall] reports for it, and the rest of the input. *)
Definition match_token (s : string) : option (token * string) :=
  match match_group1 s with
  | Some (m, r) => Some ((m, ""), r)
  | None =>
      match match_group2 s with
      | Some (m, r) => Some (("", m), r)
      | None =>
          match match_space s with
          | Some (_, r) => Some (("", ""), r)
          | None => None
          end
      end
  end.

(** [findall] scans from the left; where nothing matches it moves on by
    one character.  Every match is non-empty, so [String.length s] steps
    are enough (see [findall_fuel]). *)
Fixpoint findall_from (fuel : nat) (s : string) : list token :=
  match fuel with
  | O => []
  | S fuel' =>
      match s with
      | EmptyString => []
      | String _ s' =>
          match match_token s with
          | Some (t, r) => t :: findall_from fuel' r
          | None => findall_from fuel' s'
          end
      end
  end.

Definition findall (s : string) : list token := findall_from (String.length s) s.

(** A matcher that, when it matches, leaves strictly less input. *)
Definition consuming (m : string -> option (string * string)) : Prop :=
  ∀ s a r, m s = Some (a, r) → (String.length r < String.length s)%nat.

(** The comparison signs the parser looks for in group 1. *)
Definition comparison (m : string) : Prop := m = ">" ∨ m = "<".

End Tokenizer.

(** ** The gNMI messages *)

(** Modelled from the spec: the generated message classes of
    [proto/gnmi_pb2] ([Path], [PathElem]), which [client.py] instantiates
    but which are not part of the sources at hand.  The spec gives their
    wire structure as [PathElem { name: string, key: map<string,string> }]
    and [Path { origin: string (optional), elem: [PathElem] }]; a fresh
    message has an empty name, no keys, no origin and no elements. *)
Record PathElem : Type := mkPathElem {
  name : string;
  key : gmap string string
}.

Record Path : Type := mkPath {
  origin : option string;
  elem : list PathElem
}.

(** [proto.gnmi_pb2.PathElem()]. *)
Definition new_PathElem : PathElem := {| name := ""; key := ∅ |}.

(** Modelled from the spec: [bool(msg)] for a message object.  The
    generated classes define no truth value of their own, so an object
    is true whatever its fields hold; the spec's design notes record it
    as appending the in-progress element "whenever it exists as an
    object, even when it has no name". *)
Definition PathElem_truthy (e : PathElem) : bool := true.

(** ** Failures

    The code raises a plain [Exception]; the constructors name the raise
    sites by the kinds the spec gives them:
    - [InvalidInput]: "xpath must be a string!", "origin must be a string!"
    - [IncompleteElement]: "Current PathElem has no name yet is trying to
      be pushed to path! Invalid XPath?"
    - [UnsupportedOperator]: "Only = supported as filter operand!"
    - [DuplicateKey]: "Key already in key map!"
    - [HangingKeyFilter]: "Hanging key filter! Incomplete XPath?"
    - [UnterminatedXPath]: "Unfinished elements in XPath parsing!" *)
Inductive error : Type :=
  | InvalidInput
  | IncompleteElement
  | UnsupportedOperator
  | DuplicateKey
  | HangingKeyFilter
  | UnterminatedXPath.

Inductive result (A : Type) : Type :=
  | Ok (a : A)
  | Raise (e : error).

Arguments Ok {A} a.
Arguments Raise {A} e.

#[global] Instance result_bind : MBind result :=
  fun A B (k : A -> result B) (r : result A) =>
    match r with
    | Ok a => k a
    | Raise e => Raise e
    end.

(** ** The parser *)

Module Client.

Import Tokenizer.

(** The local variables of [parse_xpath_to_gnmi_path] that live across
    iterations of its loop; [path_elem] is [path.elem]. *)
Record state : Type := mkState {
  path_elem : list PathElem;
  curr_elem : PathElem;
  in_filter : bool;
  just_filtered : bool;
  curr_key : option string
}.

Definition init : state :=
  {| path_elem := []; curr_elem := new_PathElem; in_filter := false;
     just_filtered := false; curr_key := None |}.

(** [bool(curr_key)]: neither [None] nor the empty string. *)
Definition key_truthy (k : option string) : bool :=
  match k with
  | Some s => Py.nonempty s
  | None => false
  end.

(** [k in curr_elem.key.keys()]. *)
Definition in_keys (k : string) (e : PathElem) : bool :=
  bool_decide (is_Some (key e !! k)).

(** The body of the [for] loop, for one [element] of [xpath_elements]. *)
Definition step (st : state) (element : token) : result state :=
  let '(e0, e1) := element in
  if bool_decide (e0 = "/") then
    if negb (Py.nonempty (name (curr_elem st))) then Raise IncompleteElement
    else Ok {| path_elem := path_elem st ++ [curr_elem st];
               curr_elem := new_PathElem;
               in_filter := in_filter st;
               just_filtered := just_filtered st;
               curr_key := curr_key st |}
  else if bool_decide (e0 = "[") then
    Ok {| path_elem := path_elem st; curr_elem := curr_elem st;
          in_filter := true;
          just_filtered := just_filtered st; curr_key := curr_key st |}
  else if bool_decide (e0 = "]") then
    Ok {| path_elem := path_elem st; curr_elem := curr_elem st;
          in_filter := false;
          just_filtered := just_filtered st; curr_key := curr_key st |}
  else if negb (in_filter st) then
    Ok {| path_elem := path_elem st;
          curr_elem := {| name := e1; key := key (curr_elem st) |};
          in_filter := in_filter st;
          just_filtered := just_filtered st; curr_key := curr_key st |}
  else if negb (Py.nonempty e0 || Py.nonempty e1) then Ok st
  else if in_filter st && just_filtered st && bool_decide (e1 = "and") then
    Ok {| path_elem := path_elem st; curr_elem := curr_elem st;
          in_filter := in_filter st;
          just_filtered := false; curr_key := curr_key st |}
  else
    match curr_key st with
    | None =>
        Ok {| path_elem := path_elem st; curr_elem := curr_elem st;
              in_filter := in_filter st; just_filtered := just_filtered st;
              curr_key := Some e1 |}
    | Some k =>
        if bool_decide (e0 = ">") || bool_decide (e0 = "<") then Raise UnsupportedOperator
        else if bool_decide (e0 = "=") then Ok st
        else if in_keys k (curr_elem st) then Raise DuplicateKey
        else
          Ok {| path_elem := path_elem st;
                curr_elem :=
                  {| name := name (curr_elem st);
                     key := <[ k := Py.strip (String squote (String dquote EmptyString)) e0 ]>
                              (key (curr_elem st)) |};
                in_filter := in_filter st;
                just_filtered := true;
                curr_key := None |}
    end.

(** The [for] loop; an exception leaves it at once. *)
Fixpoint run (st : state) (xpath_elements : list token) : result state :=
  match xpath_elements with
  | [] => Ok st
  | element :: rest => st' ← step st element; run st' rest
  end.

(** The statements after the loop.  [curr_elem] is set to [None] once it
    is appended, so the last test reads [any([None, curr_key, in_filter])]. *)
Definition finish (origin : option string) (st : state) : result Path :=
  if key_truthy (curr_key st) then Raise HangingKeyFilter
  else
    let elems :=
      if PathElem_truthy (curr_elem st) then path_elem st ++ [curr_elem st]
      else path_elem st in
    let curr_elem_truthy :=
      if PathElem_truthy (curr_elem st) then false
      else PathElem_truthy (curr_elem st) in
    if curr_elem_truthy || key_truthy (curr_key st) || in_filter st
    then Raise UnterminatedXPath
    else Ok {| origin := origin; elem := elems |}.

(** The [origin] argument: ignored when it is false, required to be a
    string otherwise. *)
Definition check_origin (origin : Py.obj) : result (option string) :=
  if Py.truthy origin then
    match origin with
    | Py.Str o => Ok (Some o)
    | _ => Raise InvalidInput
    end
  else Ok None.

Definition parse_xpath_to_gnmi_path (xpath origin : Py.obj) : result Path :=
  match xpath with
  | Py.Str xpath =>
      origin' ← check_origin origin;
      st ← run init (findall (Py.strip "/" xpath));
      finish origin' st
  | _ => Raise InvalidInput
  end.

(** [parse_xpath_to_gnmi_path(xpath)] on a string, [origin] left at its
    default [None]. *)
Definition parse (xpath : string) : result Path :=
  parse_xpath_to_gnmi_path (Py.Str xpath) Py.None_.

End Client.

(** ** Paths of simple names

    The inputs of the form [n1/n2/.../nk]: what a simple name is, and
    how the names are joined. *)

Module Simple.

(** A character that is no whitespace, no [/], no bracket, no quote and
    no operator sign. *)
Definition name_char (c : ascii) : bool :=
  negb (Py.is_space c)
  && negb (Py.in_chars c "/[](){}=!<>@")
  && negb (Ascii.eqb c Tokenizer.squote) && negb (Ascii.eqb c Tokenizer.dquote).

(** The characters [.], [*] and [:] are XPath operators where a step
    starts (self, parent, wildcard, axis), and part of a name after its
    first character. *)
Definition name_start (c : ascii) : bool :=
  name_char c && negb (Py.in_chars c ".*:").

Fixpoint all_chars (p : ascii -> bool) (s : string) : bool :=
  match s with
  | EmptyString => true
  | String c s' => p c && all_chars p s'
  end.

Definition simple_name (s : string) : bool :=
  match s with
  | EmptyString => false
  | String c s' => name_start c && all_chars name_char s'
  end.

(** [sep.join(names)]. *)
Fixpoint join (sep : string) (names : list string) : string :=
  match names with
  | [] => EmptyString
  | n :: rest =>
      match rest with
      | [] => n
      | _ :: _ => n +:+ sep +:+ join sep rest
      end
  end.

(** The element a bare name stands for. *)
Definition named (n : string) : PathElem := {| name := n; key := ∅ |}.

(** What may follow a name in such a path: nothing, or a slash. *)
Definition step_end (r : string) : Prop := r = EmptyString ∨ ∃ s, r = String "/" s.

(** The tokens of [n/n1/.../nk]: a name, then a slash and a name for
    each further step. *)
Definition name_tokens (n : string) (ns : list string) : list Tokenizer.token :=
  ("", n) :: flat_map (λ m, [("/", ""); ("", m)]) ns.

End Simple.

(** ** Expressions with filters

    The text of a path whose filter values are quoted: each element is a
    name followed by bracket groups, each group a list of clauses
    [k='v'] joined by [and]; the elements are joined by slashes. *)

Module Render.

Import Tokenizer.

(** The number of slash tokens among the tokens of an expression. *)
Definition slash_count (xpath_elements : list token) : nat :=
  length (filter (λ element, element.1 = "/") xpath_elements).

(** A clause: key and value. *)
Definition clause : Type := string * string.

(** An element: its name and its bracket groups. *)
Definition element : Type := string * list (list clause).

(** [v] between single quotes. *)
Definition quoted (v : string) : string :=
  String squote (v +:+ String squote EmptyString).

Definition render_clause (c : clause) : string :=
  c.1 +:+ "=" +:+ quoted c.2.

Definition render_group (g : list clause) : string :=
  "[" +:+ Simple.join " and " (map render_clause g) +:+ "]".

Definition render_groups (gs : list (list clause)) : string :=
  foldr (λ g rest, render_group g +:+ rest) EmptyString gs.

Definition render_element (e : element) : string :=
  e.1 +:+ render_groups e.2.

Definition render (es : list element) : string :=
  Simple.join "/" (map render_element es).

(** The clauses of an element, over all its groups. *)
Definition clauses (e : element) : list clause := concat e.2.

(** The message an element stands for. *)
Definition to_PathElem (e : element) : PathElem :=
  {| name := e.1; key := list_to_map (clauses e) |}.

(** A value that holds no quote character. *)
Definition value_char (c : ascii) : bool :=
  negb (Ascii.eqb c squote) && negb (Ascii.eqb c dquote).

(** A clause whose key is a simple name other than the junction word
    and whose value can stand between quotes. *)
Definition wf_clause (c : clause) : Prop :=
  Simple.simple_name c.1 = true ∧ c.1 ≠ "and"
  ∧ Simple.all_chars value_char c.2 = true.

(** An element with a simple name and well-formed clauses, no key twice. *)
Definition wf_element (e : element) : Prop :=
  Simple.simple_name e.1 = true
  ∧ Forall wf_clause (clauses e)
  ∧ NoDup (clauses e).*1.

(** The parser between two tokens with no key pending: the elements
    appended so far, the name and the keys of the element under
    construction, and whether a filter is open. *)
Definition at_rest (st : Client.state) (els : list PathElem)
    (n : string) (m : gmap string string) (f : bool) : Prop :=
  Client.path_elem st = els ∧ name (Client.curr_elem st) = n
  ∧ key (Client.curr_elem st) = m ∧ Client.in_filter st = f
  ∧ Client.curr_key st = None.

(** The keys after the clauses [g] were stored one by one into [m]. *)
Definition store (m : gmap string string) (g : list clause) : gmap string string :=
  foldl (λ m c, <[ c.1 := c.2 ]> m) m g.

(** A text that [strip] leaves alone at its end: not empty, and without
    a slash to take off there. *)
Definition keeps_end (s : string) : Prop :=
  Py.rstrip "/" s = s ∧ s ≠ EmptyString.

(** Where a name token ends: at the end of the input, or before a
    character that is no part of a name. *)
Definition boundary (r : string) : Prop :=
  r = EmptyString ∨ ∃ d s, r = String d s ∧ tag_char d = false.

(** The tokens of the text of a clause, of the clauses of a group, of a
    group, of an element and of a path. *)
Definition clause_tokens (c : clause) : list token :=
  [("", c.1); ("=", ""); (quoted c.2, "")].

Definition junction_tokens : list token := [("", ""); ("", "and"); ("", "")].

Fixpoint clauses_tokens (g : list clause) : list token :=
  match g with
  | [] => []
  | c :: rest =>
      match rest with
      | [] => clause_tokens c
      | _ :: _ => clause_tokens c ++ junction_tokens ++ clauses_tokens rest
      end
  end.

Definition group_tokens (g : list clause) : list token :=
  ("[", "") :: clauses_tokens g ++ [("]", "")].

Definition element_tokens (e : element) : list token :=
  ("", e.1) :: flat_map group_tokens e.2.

Fixpoint path_tokens (es : list element) : list token :=
  match es with
  | [] => []
  | e :: rest =>
      match rest with
      | [] => element_tokens e
      | _ :: _ => element_tokens e ++ ("/", "") :: path_tokens rest
      end
  end.

End Render.

(** * Properties *)

(** ** The tokenizer consumes its input *)

Module TokenizerFacts.

Import Tokenizer.

Lemma span_length p s a b :
  span p s = (a, b) → String.length s = String.length a + String.length b.
Proof.
  revert a b. induction s as [|c s IH]; intros a b; simpl.
  - intros [= <- <-]. reflexivity.
  - destruct (p c).
    + destruct (span p s) as [a' b'] eqn:E. intros [= <- <-].
      simpl. rewrite (IH a' b' eq_refl). reflexivity.
    + intros [= <- <-]. reflexivity.
Qed.

Lemma match_lit_spec lit s m r :
  match_lit lit s = Some (m, r) → m = lit ∧ s = lit +:+ r.
Proof.
  revert s m r. induction lit as [|c lit IH]; intros s m r; simpl.
  - intros [= <- <-]. done.
  - destruct s as [|d s]; [done|].
    destruct (Ascii.eqb c d) eqn:E; [|done].
    apply Ascii.eqb_eq in E as <-.
    destruct (match_lit lit s) as [[m' r']|] eqn:E'; [|done].
    intros [= <- <-]. destruct (IH _ _ _ E') as [-> ->]. done.
Qed.

Lemma app_length (a b : string) :
  String.length (a +:+ b) = String.length a + String.length b.
Proof. induction a as [|c a IH]; simpl; [done|]. by rewrite IH. Qed.

Lemma app_cons c (a b : string) : String c a +:+ b = String c (a +:+ b).
Proof. reflexivity. Qed.

Lemma app_empty_r (a : string) : a +:+ EmptyString = a.
Proof. induction a as [|c a IH]; [done|]. by rewrite app_cons, IH. Qed.

Lemma match_lit_consuming c lit : consuming (match_lit (String c lit)).
Proof.
  intros s a r H. apply match_lit_spec in H as [_ ->].
  rewrite app_length. simpl. lia.
Qed.

Lemma match_quoted_consuming q : consuming (match_quoted q).
Proof.
  intros [|c s] a r; simpl; [done|].
  destruct (Ascii.eqb c q); [|done].
  destruct (span _ s) as [body [|d rest]] eqn:E; [done|].
  intros [= <- <-]. apply span_length in E. rewrite E. simpl. lia.
Qed.

Lemma match_slashes_consuming : consuming match_slashes.
Proof.
  intros s a r. unfold match_slashes.
  destruct (match_lit "//" s) as [[m r']|] eqn:E.
  - intros [= <- <-]. by apply match_lit_consuming in E.
  - apply match_lit_consuming.
Qed.

Lemma match_punct_consuming : consuming match_punct.
Proof.
  intros [|c s] a r; unfold match_punct; [done|].
  destruct (Py.in_chars c punct); [|done]. intros [= <- <-]. simpl. lia.
Qed.

Lemma span_consuming p s a r :
  span p s = (a, r) → a ≠ EmptyString → String.length r < String.length s.
Proof.
  intros E Ha. apply span_length in E. rewrite E.
  destruct a; [done|]. simpl. lia.
Qed.

Lemma match_tag_consuming : consuming match_tag.
Proof.
  intros s a r. unfold match_tag.
  destruct (span tag_char s) as [[|c t] r'] eqn:E; [done|].
  intros [= <- <-]. by eapply span_consuming.
Qed.

Lemma match_space_consuming : consuming match_space.
Proof.
  intros s a r. unfold match_space.
  destruct (span Py.is_space s) as [[|c t] r'] eqn:E; [done|].
  intros [= <- <-]. by eapply span_consuming.
Qed.

Lemma match_braced_consuming : consuming match_braced.
Proof.
  intros [|c s] a r; simpl; [done|].
  destruct (Ascii.eqb c "{"); [|done].
  destruct (span _ s) as [[|n ns] [|d r']] eqn:E; try done.
  destruct (match_tag r') as [[t rest]|] eqn:E'; [|done].
  intros [= <- <-]. apply span_length in E. apply match_tag_consuming in E'.
  rewrite E. simpl in *. lia.
Qed.

(** What holds of every alternative holds of the first that matches. *)
Lemma first_match_elim (P : string → string → string → Prop) alts :
  Forall (λ m, ∀ s a r, m s = Some (a, r) → P s a r) alts →
  ∀ s a r, first_match alts s = Some (a, r) → P s a r.
Proof.
  induction 1 as [|m alts Hm _ IH]; intros s a r; simpl; [done|].
  destruct (m s) as [[a' r']|] eqn:E.
  - intros [= <- <-]. by eapply Hm.
  - apply IH.
Qed.

Lemma first_match_consuming alts :
  Forall consuming alts → consuming (first_match alts).
Proof.
  intros H.
  exact (first_match_elim (λ s _ r, (String.length r < String.length s)%nat) alts H).
Qed.

Lemma match_group1_consuming : consuming match_group1.
Proof.
  apply first_match_consuming. unfold group1_alts.
  repeat constructor;
    auto using match_quoted_consuming, match_lit_consuming,
      match_slashes_consuming, match_punct_consuming.
Qed.

Lemma match_group2_consuming : consuming match_group2.
Proof.
  apply first_match_consuming.
  repeat constructor; auto using match_braced_consuming, match_tag_consuming.
Qed.

Lemma match_token_consuming s t r :
  match_token s = Some (t, r) → String.length r < String.length s.
Proof.
  unfold match_token.
  destruct (match_group1 s) as [[m1 r1]|] eqn:E1.
  { intros [= <- <-]. by eapply match_group1_consuming. }
  destruct (match_group2 s) as [[m2 r2]|] eqn:E2.
  { intros [= <- <-]. by eapply match_group2_consuming. }
  destruct (match_space s) as [[m3 r3]|] eqn:E3; [|done].
  intros [= <- <-]. by eapply match_space_consuming.
Qed.

(** Any fuel that covers the input gives the same tokens: the scan of
    [findall] ends, and [String.length s] steps reach its end. *)
Lemma findall_from_fuel (n m : nat) (s : string) :
  (String.length s ≤ n)%nat → (String.length s ≤ m)%nat →
  findall_from n s = findall_from m s.
Proof.
  revert m s. induction n as [|n IH]; intros m s Hn Hm.
  - destruct s; simpl in Hn; [|lia]. by destruct m.
  - destruct m as [|m]; [destruct s; simpl in Hm; [done|lia]|].
    destruct s as [|c s]; [done|]. cbn [findall_from].
    destruct (match_token (String c s)) as [[t r]|] eqn:E.
    + apply match_token_consuming in E. simpl in *. f_equal. apply IH; lia.
    + simpl in *. apply IH; lia.
Qed.

Lemma findall_fuel (n : nat) (s : string) :
  (String.length s ≤ n)%nat → findall_from n s = findall s.
Proof. intros H. by apply findall_from_fuel. Qed.

(** The unfolding equations of [findall]. *)
Lemma findall_empty : findall EmptyString = [].
Proof. reflexivity. Qed.

Lemma findall_match s t r :
  match_token s = Some (t, r) → findall s = t :: findall r.
Proof.
  intros E. unfold findall at 1. destruct s as [|c s]; [done|].
  cbn [String.length findall_from]. rewrite E. f_equal.
  apply findall_fuel. apply match_token_consuming in E. simpl in E. lia.
Qed.

Lemma findall_skip c s :
  match_token (String c s) = None → findall (String c s) = findall s.
Proof. intros E. unfold findall at 1. cbn [String.length findall_from]. by rewrite E. Qed.

(** ** The tokenizer has no token for a comparison sign

    Neither [<] nor [>] is among the alternatives of group 1, and both
    are characters of a group 2 run: no pair of [findall] carries one of
    them as its first component. *)

Lemma match_group1_no_comparison s m r :
  match_group1 s = Some (m, r) → ¬ comparison m.
Proof.
  revert s m r. apply first_match_elim. unfold group1_alts.
  repeat apply List.Forall_cons; [..|apply List.Forall_nil]; intros s a r.
  - destruct s as [|c s]; cbn [match_quoted]; [done|].
    destruct (Ascii.eqb c squote); [|done].
    destruct (span _ s) as [body [|d rest]]; [done|].
    intros [= <- <-] [[=]|[=]].
  - destruct s as [|c s]; cbn [match_quoted]; [done|].
    destruct (Ascii.eqb c dquote); [|done].
    destruct (span _ s) as [body [|d rest]]; [done|].
    intros [= <- <-] [[=]|[=]].
  - intros H. apply match_lit_spec in H as [-> _]. intros [[=]|[=]].
  - unfold match_slashes. destruct (match_lit "//" s) as [[m' r']|] eqn:E.
    + intros [= <- <-]. apply match_lit_spec in E as [-> _]. intros [[=]|[=]].
    + intros H. apply match_lit_spec in H as [-> _]. intros [[=]|[=]].
  - intros H. apply match_lit_spec in H as [-> _]. intros [[=]|[=]].
  - intros H. apply match_lit_spec in H as [-> _]. intros [[=]|[=]].
  - intros H. apply match_lit_spec in H as [-> _]. intros [[=]|[=]].
  - destruct s as [|c s]; unfold match_punct; [done|].
    destruct (Py.in_chars c punct) eqn:E; [|done].
    intros [= <- <-] [[= ->]|[= ->]]; vm_compute in E; done.
Qed.

Lemma match_token_no_comparison s e0 e1 r :
  match_token s = Some ((e0, e1), r) → ¬ comparison e0.
Proof.
  unfold match_token.
  destruct (match_group1 s) as [[m1 r1]|] eqn:E1.
  { intros [= <- <- <-]. by eapply match_group1_no_comparison. }
  destruct (match_group2 s) as [[m2 r2]|]; [intros [= <- <- <-] [[=]|[=]]|].
  destruct (match_space s) as [[m3 r3]|]; [|done].
  intros [= <- <- <-] [[=]|[=]].
Qed.

Lemma findall_from_no_comparison fuel s e0 e1 :
  (e0, e1) ∈ findall_from fuel s → ¬ comparison e0.
Proof.
  revert s. induction fuel as [|fuel IH]; intros s; cbn [findall_from].
  { by intros ?%elem_of_nil. }
  destruct s as [|c s]; [by intros ?%elem_of_nil|].
  destruct (match_token (String c s)) as [[[t0 t1] r]|] eqn:E; [|apply IH].
  intros [[= -> ->]|H]%elem_of_cons; [|by eapply IH].
  by eapply match_token_no_comparison.
Qed.

End TokenizerFacts.

(** ** The loop body and the statements after the loop *)

Module ClientFacts.

Import Tokenizer Client.

(** Splits the goal along the tests of [step]. *)
Ltac step_cases :=
  repeat first
    [ case_bool_decide
    | match goal with
      | |- context [if negb ?b then _ else _] => destruct b eqn:?; cbn [negb]
      | |- context [if ?b then _ else _] => destruct b eqn:?
      | |- context [match curr_key ?st with _ => _ end] => destruct (curr_key st) eqn:?
      end ].

Lemma in_keys_true k e : in_keys k e = true ↔ is_Some (key e !! k).
Proof. unfold in_keys. by rewrite bool_decide_eq_true. Qed.

Lemma in_keys_false k e : in_keys k e = false ↔ key e !! k = None.
Proof.
  unfold in_keys. rewrite bool_decide_eq_false.
  by rewrite eq_None_not_Some.
Qed.

(** A step that succeeds either leaves [path.elem] alone and only adds to
    the keys of the element under construction, or appends that element
    as it stands. *)
Lemma step_keeps_keys st element st' :
  step st element = Ok st' →
  (path_elem st' = path_elem st ∧ key (curr_elem st) ⊆ key (curr_elem st'))
  ∨ path_elem st' = path_elem st ++ [curr_elem st].
Proof.
  destruct element as [e0 e1]. unfold step.
  step_cases; intros [= <-]; cbn; try (by left); try (by right).
  all: left; split; [done|]; apply insert_subseteq; by apply in_keys_false.
Qed.

Lemma run_cons_Ok st element rest st1 :
  step st element = Ok st1 → run st (element :: rest) = run st1 rest.
Proof. intros H. cbn [run]. by rewrite H. Qed.

Lemma run_cons_Raise st element rest e :
  step st element = Raise e → run st (element :: rest) = Raise e.
Proof. intros H. cbn [run]. by rewrite H. Qed.

Lemma run_keeps_keys xpath_elements st st' :
  run st xpath_elements = Ok st' →
  (path_elem st' = path_elem st ∧ key (curr_elem st) ⊆ key (curr_elem st'))
  ∨ ∃ e rest, path_elem st' = path_elem st ++ e :: rest
              ∧ key (curr_elem st) ⊆ key e.
Proof.
  revert st. induction xpath_elements as [|element rest IH]; intros st.
  - intros [= <-]. by left.
  - destruct (step st element) as [st1|] eqn:E;
      [rewrite (run_cons_Ok _ _ _ _ E)|by rewrite (run_cons_Raise _ _ _ _ E)].
    intros H. apply IH in H. apply step_keeps_keys in E.
    destruct E as [[E1 E2]|E], H as [[H1 H2]|(e & r & H1 & H2)].
    + left. split; [congruence|]. by etrans.
    + right. exists e, r. split; [congruence|]. by etrans.
    + right. exists (curr_elem st), []. split; [congruence|done].
    + right. exists (curr_elem st), (e :: r). split; [|done].
      rewrite H1, E. by rewrite <- app_assoc.
Qed.

(** Where [step] raises the operator failure, group 1 of the token is a
    comparison sign. *)
Lemma step_UnsupportedOperator st e0 e1 :
  step st (e0, e1) = Raise UnsupportedOperator → e0 = ">" ∨ e0 = "<".
Proof. unfold step. step_cases; try done; auto. Qed.

(** The raise site itself: a token with a comparison sign in group 1,
    met in a filter while a key is pending, raises the operator failure. *)
Lemma step_comparison_token st k e0 :
  in_filter st = true → curr_key st = Some k → comparison e0 →
  step st (e0, "") = Raise UnsupportedOperator.
Proof.
  intros Hf Hk [-> | ->]; unfold step; rewrite Hf, Hk; cbn;
    by rewrite andb_false_r.
Qed.

Lemma run_UnsupportedOperator xpath_elements st :
  run st xpath_elements = Raise UnsupportedOperator →
  ∃ e0 e1, (e0, e1) ∈ xpath_elements ∧ (e0 = ">" ∨ e0 = "<").
Proof.
  revert st. induction xpath_elements as [|[e0 e1] rest IH]; intros st; [done|].
  destruct (step st (e0, e1)) as [st1|e] eqn:E.
  - rewrite (run_cons_Ok _ _ _ _ E).
    intros H. destruct (IH _ H) as (x & y & Hin & Hxy).
    exists x, y. split; [by right|done].
  - rewrite (run_cons_Raise _ _ _ _ E).
    intros [= ->]. exists e0, e1. split; [by left|].
    by eapply step_UnsupportedOperator.
Qed.

(** The append inside the loop is guarded: the elements the loop puts on
    the path all have a name. *)
Lemma step_named st element st' :
  step st element = Ok st' →
  Forall (λ e, Py.nonempty (name e) = true) (path_elem st) →
  Forall (λ e, Py.nonempty (name e) = true) (path_elem st').
Proof.
  destruct element as [e0 e1]. unfold step.
  step_cases; intros [= <-]; cbn; try done.
  intros Hall. apply Forall_app. split; [done|].
  by apply Forall_singleton.
Qed.

Lemma run_named xpath_elements st st' :
  run st xpath_elements = Ok st' →
  Forall (λ e, Py.nonempty (name e) = true) (path_elem st) →
  Forall (λ e, Py.nonempty (name e) = true) (path_elem st').
Proof.
  revert st. induction xpath_elements as [|element rest IH]; intros st.
  - by intros [= <-].
  - destruct (step st element) as [st1|] eqn:E;
      [rewrite (run_cons_Ok _ _ _ _ E)|by rewrite (run_cons_Raise _ _ _ _ E)].
    intros H1 H2. eapply IH; [done|]. by eapply step_named.
Qed.

(** Of a path that is returned, every element before the last has a
    name: the last one alone is appended unguarded. *)
Lemma parse_elements_before_last_named xpath origin p :
  parse_xpath_to_gnmi_path xpath origin = Ok p →
  ∃ last, elem p = removelast (elem p) ++ [last]
          ∧ Forall (λ e, Py.nonempty (name e) = true) (removelast (elem p)).
Proof.
  unfold parse_xpath_to_gnmi_path. destruct xpath as [| | |xp|]; try done.
  destruct (check_origin origin) as [o|]; cbn [mbind result_bind]; [|done].
  destruct (run init _) as [st|] eqn:E; cbn [mbind result_bind]; [|done].
  unfold finish, PathElem_truthy. step_cases; intros [= <-]. cbn [elem].
  exists (curr_elem st). rewrite removelast_last. split; [done|].
  apply (run_named _ _ _ E). constructor.
Qed.

Lemma finish_not_UnsupportedOperator o st : finish o st ≠ Raise UnsupportedOperator.
Proof. unfold finish. step_cases; done. Qed.

Lemma check_origin_InvalidInput origin e : check_origin origin = Raise e → e = InvalidInput.
Proof. unfold check_origin. destruct (Py.truthy origin), origin; by intros [=]. Qed.

End ClientFacts.

(** ** Paths of simple names *)

Module SimpleFacts.

Import Tokenizer Simple.

Lemma all_chars_impl (p q : ascii → bool) s :
  (∀ c, p c = true → q c = true) → all_chars p s = true → all_chars q s = true.
Proof.
  intros Hpq. induction s as [|c s IH]; cbn; [done|].
  intros [Hc Hs]%andb_true_iff. rewrite (Hpq _ Hc). by apply IH.
Qed.

(** A character outside a class is none of a string of that class. *)
Lemma in_chars_none (p : ascii → bool) c chars :
  all_chars p chars = true → p c = false → Py.in_chars c chars = false.
Proof.
  intros Hall Hc. induction chars as [|d chars IH]; cbn in *; [done|].
  apply andb_true_iff in Hall as [Hd Hall]. rewrite (IH Hall), orb_false_r.
  destruct (Ascii.eqb c d) eqn:E; [|done].
  apply Ascii.eqb_eq in E as ->. congruence.
Qed.

Lemma in_chars_eqb c chars d :
  Py.in_chars c chars = false → Py.in_chars d chars = true → Ascii.eqb d c = false.
Proof.
  intros Hc Hd. destruct (Ascii.eqb d c) eqn:E; [|done].
  apply Ascii.eqb_eq in E as ->. congruence.
Qed.

(** What [name_char] and [name_start] say, test by test. *)
Lemma name_char_spec c :
  name_char c = true →
  Py.is_space c = false ∧ Py.in_chars c "/[](){}=!<>@" = false
  ∧ Ascii.eqb c squote = false ∧ Ascii.eqb c dquote = false.
Proof.
  unfold name_char. rewrite !andb_true_iff, !negb_true_iff. tauto.
Qed.

Lemma name_start_spec c :
  name_start c = true → name_char c = true ∧ Py.in_chars c ".*:" = false.
Proof. unfold name_start. by rewrite andb_true_iff, negb_true_iff. Qed.

Lemma name_char_tag_char c : name_char c = true → tag_char c = true.
Proof.
  intros (Hs & Hd & _)%name_char_spec. unfold tag_char.
  rewrite Hs, orb_false_r. apply negb_true_iff.
  by apply (in_chars_none (λ d, Py.in_chars d "/[](){}=!<>@")).
Qed.

Lemma name_char_not_slash c :
  name_char c = true → negb (Py.in_chars c "/") = true.
Proof.
  intros (_ & Hd & _)%name_char_spec. apply negb_true_iff.
  by apply (in_chars_none (λ d, Py.in_chars d "/[](){}=!<>@")).
Qed.

Lemma simple_name_chars n :
  simple_name n = true → all_chars name_char n = true.
Proof.
  destruct n as [|c n]; cbn; [done|].
  intros [[Hc _]%name_start_spec Hn]%andb_true_iff. by rewrite Hc.
Qed.

(** *** The matchers at the start of a name *)

Lemma match_quoted_ne q c s : Ascii.eqb c q = false → match_quoted q (String c s) = None.
Proof. intros H. cbn [match_quoted]. by rewrite H. Qed.

Lemma match_lit_ne d lit c s :
  Ascii.eqb d c = false → match_lit (String d lit) (String c s) = None.
Proof. intros H. cbn [match_lit]. by rewrite H. Qed.

Lemma match_group1_name_start c s :
  name_start c = true → match_group1 (String c s) = None.
Proof.
  intros [(_ & Hd & Hsq & Hdq)%name_char_spec Ho]%name_start_spec.
  unfold match_group1, group1_alts, match_slashes, match_punct. cbn [first_match].
  rewrite !match_quoted_ne by done.
  rewrite (match_lit_ne ":") by (by apply (in_chars_eqb _ _ _ Ho)).
  rewrite !(match_lit_ne "/") by (by apply (in_chars_eqb _ _ _ Hd)).
  rewrite (match_lit_ne ".") by (by apply (in_chars_eqb _ _ _ Ho)).
  rewrite (match_lit_ne "(") by (by apply (in_chars_eqb _ _ _ Hd)).
  rewrite (match_lit_ne "!") by (by apply (in_chars_eqb _ _ _ Hd)).
  assert (Py.in_chars c punct = false) as ->; [|done].
  apply (in_chars_none (λ d, Py.in_chars d "/[](){}=!<>@" || Py.in_chars d ".*:"));
    [done|]. by rewrite Hd, Ho.
Qed.

Lemma span_app p a r :
  all_chars p a = true →
  (r = EmptyString ∨ ∃ d s, r = String d s ∧ p d = false) →
  span p (a +:+ r) = (a, r).
Proof.
  intros Ha Hr. induction a as [|c a IH]; simpl in *.
  - destruct Hr as [->|(d & s & -> & Hd)]; [done|]. simpl. by rewrite Hd.
  - apply andb_true_iff in Ha as [-> Ha]. by rewrite (IH Ha).
Qed.

Lemma match_token_name n r :
  simple_name n = true → step_end r →
  match_token (n +:+ r) = Some (("", n), r).
Proof.
  intros Hn Hr. pose proof (simple_name_chars _ Hn) as Hall.
  destruct n as [|c n]; [done|]. cbn in Hn.
  apply andb_true_iff in Hn as [Hc _].
  change (String c n +:+ r) with (String c (n +:+ r)).
  unfold match_token. rewrite (match_group1_name_start _ _ Hc).
  apply name_start_spec in Hc as [(_ & Hd & _)%name_char_spec _].
  unfold match_group2. cbn [first_match match_braced].
  replace (Ascii.eqb c "{") with false
    by (symmetry; rewrite Ascii.eqb_sym; by apply (in_chars_eqb _ _ _ Hd)).
  unfold match_tag. change (String c (n +:+ r)) with (String c n +:+ r).
  rewrite span_app; [done|by eapply all_chars_impl, Hall; apply name_char_tag_char|].
  destruct Hr as [->|[s ->]]; [by left|right]. by exists "/"%char, s.
Qed.

Lemma match_token_slash c s :
  name_start c = true →
  match_token (String "/" (String c s)) = Some (("/", ""), String c s).
Proof.
  intros [(_ & Hd & _)%name_char_spec _]%name_start_spec.
  unfold match_token, match_group1, group1_alts, match_slashes. cbn [first_match].
  rewrite !match_quoted_ne by done.
  rewrite (match_lit_ne ":") by done.
  cbn [match_lit]. rewrite Ascii.eqb_refl.
  by replace (Ascii.eqb "/" c) with false
    by (symmetry; by apply (in_chars_eqb _ _ _ Hd)).
Qed.

(** *** The joined names *)

Lemma join_cons n m ns :
  join "/" (n :: m :: ns) = n +:+ String "/" (join "/" (m :: ns)).
Proof. reflexivity. Qed.

Lemma join_head n ns :
  simple_name n = true →
  ∃ c s, join "/" (n :: ns) = String c s ∧ name_start c = true.
Proof.
  destruct n as [|c n]; [done|]. cbn [simple_name].
  intros [Hc _]%andb_true_iff. destruct ns as [|m ns].
  - by exists c, n.
  - rewrite join_cons. by eexists c, _.
Qed.

Lemma findall_join n ns :
  simple_name n = true → Forall (λ m, simple_name m = true) ns →
  findall (join "/" (n :: ns)) = name_tokens n ns.
Proof.
  intros Hn Hns. revert n Hn.
  induction Hns as [|m ns Hm _ IH]; intros n Hn.
  - cbn [join]. rewrite <- (TokenizerFacts.app_empty_r n) at 1.
    erewrite TokenizerFacts.findall_match by (apply match_token_name; [done|by left]).
    done.
  - rewrite join_cons.
    erewrite TokenizerFacts.findall_match
      by (apply match_token_name; [done|right; by eexists]).
    destruct (join_head m ns Hm) as (c & s & E & Hc).
    rewrite E. erewrite TokenizerFacts.findall_match by by apply match_token_slash.
    rewrite <- E, (IH m Hm). done.
Qed.

(** *** Stripping the slashes *)

Lemma rstrip_clean chars s :
  all_chars (λ c, negb (Py.in_chars c chars)) s = true → Py.rstrip chars s = s.
Proof.
  induction s as [|c s IH]; cbn; [done|].
  intros [Hc Hs]%andb_true_iff. rewrite (IH Hs).
  apply negb_true_iff in Hc. rewrite Hc. by destruct s.
Qed.

Lemma rstrip_app chars a b :
  Py.rstrip chars b ≠ EmptyString →
  Py.rstrip chars (a +:+ b) = a +:+ Py.rstrip chars b.
Proof.
  intros Hb. induction a as [|c a IH]; [done|].
  rewrite !TokenizerFacts.app_cons. cbn [Py.rstrip]. rewrite IH.
  destruct (a +:+ Py.rstrip chars b) eqn:E; [|done].
  destruct a; [exfalso; exact (Hb E)|].
  rewrite TokenizerFacts.app_cons in E. discriminate E.
Qed.

Lemma strip_join n ns :
  simple_name n = true → Forall (λ m, simple_name m = true) ns →
  Py.strip "/" (join "/" (n :: ns)) = join "/" (n :: ns).
Proof.
  intros Hn Hns. unfold Py.strip.
  destruct (join_head n ns Hn) as (c & s & E & Hc).
  assert (Py.lstrip "/" (join "/" (n :: ns)) = join "/" (n :: ns)) as ->.
  { rewrite E. cbn [Py.lstrip].
    apply name_start_spec in Hc as [Hc%name_char_not_slash _].
    apply negb_true_iff in Hc. by rewrite Hc. }
  clear c s E Hc. revert n Hn.
  induction Hns as [|m ns Hm _ IH]; intros n Hn.
  - apply rstrip_clean. eapply all_chars_impl, simple_name_chars, Hn.
    apply name_char_not_slash.
  - rewrite join_cons.
    destruct (join_head m ns Hm) as (c & s & E & _).
    assert (Py.rstrip "/" (String "/" (join "/" (m :: ns)))
            = String "/" (join "/" (m :: ns))) as Hr.
    { cbn [Py.rstrip]. rewrite (IH m Hm). by rewrite E. }
    rewrite rstrip_app; by rewrite Hr.
Qed.

(** *** The loop over the tokens of the names *)

Lemma simple_name_nonempty n : simple_name n = true → Py.nonempty n = true.
Proof. by destruct n. Qed.

Lemma run_name_tokens o ns : ∀ n st,
  simple_name n = true → Forall (λ m, simple_name m = true) ns →
  Client.in_filter st = false → Client.curr_key st = None →
  key (Client.curr_elem st) = ∅ →
  Client.run st (name_tokens n ns) ≫= Client.finish o
  = Ok {| origin := o; elem := Client.path_elem st ++ map named (n :: ns) |}.
Proof.
  induction ns as [|m ns IH]; intros n st Hn Hns Hf Hk He.
  - cbn. unfold Client.finish. cbn. rewrite Hf, Hk, He. done.
  - apply Forall_cons in Hns as [Hm Hns].
    change (name_tokens n (m :: ns))
      with (("", n) :: ("/", "") :: name_tokens m ns).
    erewrite ClientFacts.run_cons_Ok; cycle 1.
    { unfold Client.step. cbn. rewrite Hf. done. }
    erewrite ClientFacts.run_cons_Ok; cycle 1.
    { unfold Client.step. cbn. rewrite (simple_name_nonempty _ Hn). done. }
    rewrite IH by done. cbn. rewrite He, <- app_assoc. done.
Qed.

End SimpleFacts.

(** ** Filter values *)

(** C1: parsing "interfaces/interface[name=eth0]/state" yields the three
    elements [interfaces], [interface] and [state] in that order, the
    second with the single key [name]; but the value stored for it is
    the empty string, not "eth0": an unquoted value is a group 2 token,
    and the parser reads the value from group 1. *)
Theorem parse_unquoted_filter_value_is_dropped :
  Client.parse "interfaces/interface[name=eth0]/state"
  = Ok {| origin := None;
          elem := [ {| name := "interfaces"; key := ∅ |};
                    {| name := "interface"; key := {[ "name" := "" ]} |};
                    {| name := "state"; key := ∅ |} ] |}.
Proof. vm_compute. reflexivity. Qed.

(** C8: parsing "intf[name='eth0']" yields the single element [intf]
    whose key [name] has the value "eth0", the quotes around the value
    stripped. *)
Theorem parse_quoted_filter_value_stripped :
  Client.parse "intf[name='eth0']"
  = Ok {| origin := None;
          elem := [ {| name := "intf"; key := {[ "name" := "eth0" ]} |} ] |}.
Proof. vm_compute. reflexivity. Qed.

(** C4: parsing "intf[a=1][b=2]" and parsing "intf[a=1 and b=2]" both
    succeed and give the same path, one element [intf] with the keys [a]
    and [b], each with the empty string for its value, the unquoted
    values 1 and 2 being dropped as in C1. *)
Theorem parse_bracket_groups_and_junction_agree :
  Client.parse "intf[a=1][b=2]" = Client.parse "intf[a=1 and b=2]"
  ∧ Client.parse "intf[a=1 and b=2]"
    = Ok {| origin := None;
            elem := [ {| name := "intf";
                         key := {[ "a" := ""; "b" := "" ]} |} ] |}.
Proof. split; vm_compute; reflexivity. Qed.

(** With quoted values the two spellings of C4 agree on the keys
    [a = 1] and [b = 2]. *)
Lemma parse_quoted_bracket_groups_and_junction_agree :
  Client.parse "intf[a='1'][b='2']" = Client.parse "intf[a='1' and b='2']"
  ∧ Client.parse "intf[a='1' and b='2']"
    = Ok {| origin := None;
            elem := [ {| name := "intf";
                         key := {[ "a" := "1"; "b" := "2" ]} |} ] |}.
Proof. split; vm_compute; reflexivity. Qed.

(** ** The element appended after the loop *)

(** C3: the parse of the empty string, of a string of slashes and of the
    bare filter "[a='1']" each succeeds with a path whose one element
    has the empty name: after the loop the element under construction is
    appended whether or not it was given a name. *)
Theorem parse_appends_nameless_element :
  Client.parse "" = Ok {| origin := None; elem := [ new_PathElem ] |}
  ∧ Client.parse "///" = Ok {| origin := None; elem := [ new_PathElem ] |}
  ∧ Client.parse "[a='1']"
    = Ok {| origin := None;
            elem := [ {| name := ""; key := {[ "a" := "1" ]} |} ] |}.
Proof. repeat split; vm_compute; reflexivity. Qed.

(** ** Failures *)

(** C5: parsing "intf[rate>5]" fails, with the hanging-key failure: the
    tokenizer hands [rate>5] over as one name, which stays pending as a
    key.  No input at all makes the parser fail with the operator
    failure, since no token carries [<] or [>] in group 1. *)
Theorem parse_never_raises_UnsupportedOperator :
  Client.parse "intf[rate>5]" = Raise HangingKeyFilter
  ∧ Client.parse "intf[rate > 5]" = Raise HangingKeyFilter
  ∧ ∀ xpath origin,
      Client.parse_xpath_to_gnmi_path xpath origin ≠ Raise UnsupportedOperator.
Proof.
  split; [by vm_compute|]. split; [by vm_compute|].
  intros xpath origin. unfold Client.parse_xpath_to_gnmi_path.
  destruct xpath as [| | |xp|]; try done.
  destruct (Client.check_origin origin) as [o|e] eqn:Eo; cbn.
  2:{ apply ClientFacts.check_origin_InvalidInput in Eo as ->. done. }
  destruct (Client.run _ _) as [st|e] eqn:Er; cbn.
  { apply ClientFacts.finish_not_UnsupportedOperator. }
  intros [= ->].
  apply ClientFacts.run_UnsupportedOperator in Er as (e0 & e1 & Hin & Hcmp).
  by eapply TokenizerFacts.findall_from_no_comparison.
Qed.

(** C6, as stated, fails: parsing "intf[a" ends in the hanging-key
    failure, not in the failure for an unterminated filter. *)
Lemma parse_open_filter_with_pending_key :
  Client.parse "intf[a" = Raise HangingKeyFilter
  ∧ Client.parse "intf[a" ≠ Raise UnterminatedXPath.
Proof. split; by vm_compute. Qed.

(** C6 (amended): parsing "intf[a" fails with the hanging-key failure,
    the pending key being tested first; the failure for an unterminated
    filter is what "intf[" and "intf[a='1'" end in, and after any loop
    it is raised exactly when no non-empty key is pending and the
    parser is still inside a filter. *)
Theorem finish_UnterminatedXPath :
  Client.parse "intf[a" = Raise HangingKeyFilter
  ∧ Client.parse "intf[" = Raise UnterminatedXPath
  ∧ Client.parse "intf[a='1'" = Raise UnterminatedXPath
  ∧ ∀ o st,
      Client.finish o st = Raise UnterminatedXPath
      ↔ Client.key_truthy (Client.curr_key st) = false
        ∧ Client.in_filter st = true.
Proof.
  repeat (split; [by vm_compute|]).
  intros o st. unfold Client.finish, PathElem_truthy. cbn.
  destruct (Client.key_truthy _), (Client.in_filter st); cbn; split; try done.
  all: by intros [? ?].
Qed.

(** C7: parsing "intf[a=1][a=2]" fails with the duplicate-key
    failure.  In general a value token that arrives in a filter while
    the pending key already has a value makes the step fail with that
    failure; and through any run of steps that succeeds, a value once
    stored for a key of the element under construction is still there,
    in that element or in the element as it was appended to the path. *)
Theorem duplicate_key_aborts :
  Client.parse "intf[a=1][a=2]" = Raise DuplicateKey
  ∧ (∀ st e0 e1 k,
       Client.in_filter st = true →
       Client.curr_key st = Some k →
       is_Some (key (Client.curr_elem st) !! k) →
       e0 ∉ ["/"; "["; "]"; "="; ">"; "<"] →
       e0 ≠ "" ∨ e1 ≠ "" →
       ¬ (Client.just_filtered st = true ∧ e1 = "and") →
       Client.step st (e0, e1) = Raise DuplicateKey)
  ∧ (∀ xpath_elements st st' k v,
       Client.run st xpath_elements = Ok st' →
       key (Client.curr_elem st) !! k = Some v →
       (Client.path_elem st' = Client.path_elem st
        ∧ key (Client.curr_elem st') !! k = Some v)
       ∨ ∃ e rest, Client.path_elem st' = Client.path_elem st ++ e :: rest
                   ∧ key e !! k = Some v).
Proof.
  split; [by vm_compute|]. split.
  - intros st e0 e1 k Hf Hk Hin Hdelim Hblank Hand.
    apply ClientFacts.in_keys_true in Hin.
    assert (Py.nonempty e0 || Py.nonempty e1 = true) as Hne.
    { destruct Hblank as [H|H].
      - destruct e0; [done|]. reflexivity.
      - destruct e1; [done|]. cbn [Py.nonempty]. apply orb_true_r. }
    assert (Client.just_filtered st && bool_decide (e1 = "and") = false) as Hj.
    { apply andb_false_iff. destruct (Client.just_filtered st); [|by left].
      right. apply bool_decide_eq_false. intros ->. by apply Hand. }
    rewrite !not_elem_of_cons in Hdelim.
    destruct Hdelim as (H1 & H2 & H3 & H4 & H5 & H6 & _).
    unfold Client.step. rewrite Hf, Hk, Hne, Hin. cbn [negb andb].
    rewrite Hj. by rewrite !bool_decide_eq_false_2.
  - intros toks st st' k v Hrun Hkv.
    destruct (ClientFacts.run_keeps_keys _ _ _ Hrun) as [[E Hsub]|(e & r & E & Hsub)].
    + left. split; [done|]. by eapply lookup_weaken.
    + right. exists e, r. split; [done|]. by eapply lookup_weaken.
Qed.

(** C10: a closing bracket met outside a filter is accepted and changes
    nothing, the parser staying outside a filter; "intf]x" parses to the
    single element [x]. *)
Theorem closing_bracket_outside_filter :
  (∀ st, Client.in_filter st = false → Client.step st ("]", "") = Ok st)
  ∧ Client.parse "intf]x"
    = Ok {| origin := None; elem := [ {| name := "x"; key := ∅ |} ] |}.
Proof.
  split; [|by vm_compute].
  intros [els e f j k]. cbn. by intros ->.
Qed.

(** ** The arguments *)

(** C9, as stated, fails for [origin]: a non-string origin that is false
    (here the integer 0) is taken as no origin and the parse succeeds. *)
Lemma parse_accepts_false_origin :
  Py.is_string (Py.Int 0) = false
  ∧ Client.parse_xpath_to_gnmi_path (Py.Str "a") (Py.Int 0)
    = Ok {| origin := None; elem := [ Simple.named "a" ] |}
  ∧ Client.parse_xpath_to_gnmi_path (Py.Str "a") (Py.Int 0) ≠ Raise InvalidInput.
Proof. repeat split; by vm_compute. Qed.

(** C9 (amended): the parse fails with the invalid-input failure for
    every [xpath] that is not a string, whatever the origin, and for
    every origin that is true and not a string; no path is returned. *)
Theorem parse_rejects_non_strings (xpath origin : Py.obj) :
  Py.is_string xpath = false
  ∨ (Py.truthy origin = true ∧ Py.is_string origin = false) →
  Client.parse_xpath_to_gnmi_path xpath origin = Raise InvalidInput.
Proof.
  intros [Hx|[Ht Ho]].
  - by destruct xpath.
  - destruct xpath; try done. unfold Client.parse_xpath_to_gnmi_path.
    unfold Client.check_origin. rewrite Ht. by destruct origin.
Qed.

(** An origin that is false is taken as none, string or not. *)
Lemma parse_ignores_false_origin (xpath origin : Py.obj) :
  Py.truthy origin = false →
  Client.parse_xpath_to_gnmi_path xpath origin
  = Client.parse_xpath_to_gnmi_path xpath Py.None_.
Proof.
  intros Ht. destruct xpath; try done. unfold Client.parse_xpath_to_gnmi_path.
  unfold Client.check_origin. by rewrite Ht.
Qed.

(** ** Paths without filters *)

(** C2: for a non-empty list of simple names, the parse of the names
    joined by single slashes succeeds with one element per name, in the
    order of the names, each named by its name and with no keys. *)
Theorem parse_simple_names (names : list string) :
  names ≠ [] →
  Forall (λ n, Simple.simple_name n = true) names →
  Client.parse (Simple.join "/" names)
  = Ok {| origin := None; elem := map Simple.named names |}.
Proof.
  intros Hne Hall. destruct names as [|n ns]; [done|].
  apply Forall_cons in Hall as [Hn Hns].
  unfold Client.parse, Client.parse_xpath_to_gnmi_path. cbn [Client.check_origin Py.truthy].
  cbn [mbind result_bind].
  rewrite SimpleFacts.strip_join, SimpleFacts.findall_join by done.
  by apply (SimpleFacts.run_name_tokens None ns n Client.init).
Qed.

(** ** Instances *)

Lemma parse_simple_names_witness :
  Forall (λ n, Simple.simple_name n = true) ["interfaces"; "interface"; "state"]
  ∧ Client.parse "interfaces/interface/state"
    = Ok {| origin := None;
            elem := [ Simple.named "interfaces"; Simple.named "interface";
                      Simple.named "state" ] |}.
Proof.
  assert (Forall (λ n, Simple.simple_name n = true)
            ["interfaces"; "interface"; "state"]) as H.
  { repeat apply List.Forall_cons; try reflexivity. apply List.Forall_nil. }
  split; [exact H|].
  apply (parse_simple_names ["interfaces"; "interface"; "state"]); [discriminate|exact H].
Defined.

Lemma finish_UnterminatedXPath_witness :
  Client.finish None
    {| Client.path_elem := []; Client.curr_elem := Simple.named "intf";
       Client.in_filter := true; Client.just_filtered := false;
       Client.curr_key := None |}
  = Raise UnterminatedXPath.
Proof.
  destruct finish_UnterminatedXPath as (_ & _ & _ & H).
  apply H. split; reflexivity.
Defined.

Lemma duplicate_key_aborts_witness :
  Client.step
    {| Client.path_elem := [];
       Client.curr_elem := {| name := "intf"; key := {[ "a" := "1" ]} |};
       Client.in_filter := true; Client.just_filtered := true;
       Client.curr_key := Some "a" |}
    ("'2'", "")
  = Raise DuplicateKey.
Proof.
  destruct duplicate_key_aborts as (_ & H & _).
  apply (H _ _ _ "a").
  - reflexivity.
  - reflexivity.
  - exists "1". vm_compute. reflexivity.
  - rewrite !not_elem_of_cons. repeat split; try discriminate. apply not_elem_of_nil.
  - left. discriminate.
  - intros [_ E]. discriminate E.
Defined.

Lemma parse_rejects_non_strings_witness :
  Client.parse_xpath_to_gnmi_path (Py.Int 5) Py.None_ = Raise InvalidInput
  ∧ Client.parse_xpath_to_gnmi_path (Py.Str "a") (Py.Int 1) = Raise InvalidInput.
Proof.
  split.
  - apply parse_rejects_non_strings. left. reflexivity.
  - apply parse_rejects_non_strings. right. split; reflexivity.
Defined.

Lemma closing_bracket_outside_filter_witness :
  Client.step Client.init ("]", "") = Ok Client.init.
Proof.
  destruct closing_bracket_outside_filter as [H _].
  apply H. reflexivity.
Defined.

(** * Further properties of the parser *)

(** ** The slashes around the expression *)

Module StripFacts.

Lemma strip_cons chars c s :
  Py.in_chars c chars = true → Py.strip chars (String c s) = Py.strip chars s.
Proof. intros H. unfold Py.strip. cbn [Py.lstrip]. by rewrite H. Qed.

Lemma rstrip_snoc chars c s :
  Py.in_chars c chars = true →
  Py.rstrip chars (s +:+ String c EmptyString) = Py.rstrip chars s.
Proof.
  intros H. induction s as [|d s IH].
  - change (EmptyString +:+ String c EmptyString) with (String c EmptyString).
    cbn. by rewrite H.
  - rewrite TokenizerFacts.app_cons. cbn [Py.rstrip]. by rewrite IH.
Qed.

Lemma strip_snoc chars c s :
  Py.in_chars c chars = true →
  Py.strip chars (s +:+ String c EmptyString) = Py.strip chars s.
Proof.
  intros H. induction s as [|d s IH].
  - change (EmptyString +:+ String c EmptyString) with (String c EmptyString).
    cbn. by rewrite H.
  - rewrite TokenizerFacts.app_cons. unfold Py.strip in *. cbn [Py.lstrip].
    destruct (Py.in_chars d chars); [done|].
    rewrite <- TokenizerFacts.app_cons. by apply rstrip_snoc.
Qed.

End StripFacts.

(** X1: a slash in front of the expression and a slash after it make no
    difference to the parse, whatever the expression and the origin. *)
Theorem parse_ignores_outer_slashes (xpath : string) (origin : Py.obj) :
  Client.parse_xpath_to_gnmi_path (Py.Str (String "/" xpath)) origin
  = Client.parse_xpath_to_gnmi_path (Py.Str xpath) origin
  ∧ Client.parse_xpath_to_gnmi_path (Py.Str (xpath +:+ "/")) origin
    = Client.parse_xpath_to_gnmi_path (Py.Str xpath) origin.
Proof.
  unfold Client.parse_xpath_to_gnmi_path.
  by rewrite StripFacts.strip_cons, StripFacts.strip_snoc.
Qed.

(** ** Which failure for which fault *)

Module FailureFacts.

Import Client.

Lemma step_not_InvalidInput st element : step st element ≠ Raise InvalidInput.
Proof. destruct element as [e0 e1]. unfold step. ClientFacts.step_cases; done. Qed.

Lemma run_not_InvalidInput xpath_elements st :
  run st xpath_elements ≠ Raise InvalidInput.
Proof.
  revert st. induction xpath_elements as [|element rest IH]; intros st; [done|].
  destruct (step st element) as [st1|e] eqn:E.
  - rewrite (ClientFacts.run_cons_Ok _ _ _ _ E). apply IH.
  - rewrite (ClientFacts.run_cons_Raise _ _ _ _ E). intros [= ->].
    by eapply step_not_InvalidInput.
Qed.

Lemma finish_not_InvalidInput o st : finish o st ≠ Raise InvalidInput.
Proof. unfold finish. ClientFacts.step_cases; done. Qed.

Lemma step_length st element st' :
  step st element = Ok st' →
  length (path_elem st') = length (path_elem st) + Render.slash_count [element].
Proof.
  destruct element as [e0 e1]. unfold step, Render.slash_count.
  ClientFacts.step_cases; intros [= <-]; cbn [path_elem];
    rewrite ?length_app; cbn [length];
    first [ rewrite filter_cons_True by done | rewrite filter_cons_False by done ];
    cbn; lia.
Qed.

Lemma run_length xpath_elements st st' :
  run st xpath_elements = Ok st' →
  length (path_elem st') = length (path_elem st) + Render.slash_count xpath_elements.
Proof.
  revert st. induction xpath_elements as [|element rest IH]; intros st.
  - intros [= <-]. cbn. lia.
  - destruct (step st element) as [st1|] eqn:E;
      [rewrite (ClientFacts.run_cons_Ok _ _ _ _ E)
      |by rewrite (ClientFacts.run_cons_Raise _ _ _ _ E)].
    intros H. rewrite (IH _ H), (step_length _ _ _ E).
    unfold Render.slash_count. change (element :: rest) with ([element] ++ rest).
    rewrite filter_app, length_app. symmetry. apply Nat.add_assoc.
Qed.

End FailureFacts.

(** X2: the parse fails with the invalid-input failure exactly when
    [xpath] is not a string, or the origin is true and not a string:
    no text, however malformed, is reported as invalid input. *)
Theorem InvalidInput_iff_arguments (xpath origin : Py.obj) :
  Client.parse_xpath_to_gnmi_path xpath origin = Raise InvalidInput
  ↔ Py.is_string xpath = false
    ∨ (Py.truthy origin = true ∧ Py.is_string origin = false).
Proof.
  unfold Client.parse_xpath_to_gnmi_path, Client.check_origin. split.
  - destruct xpath as [| | |xp|]; try by left.
    destruct (Py.truthy origin) eqn:Ht;
      [destruct origin as [| | |o|]; try (by right)|];
      cbn [mbind result_bind]; intros H; exfalso; revert H.
    all: destruct (Client.run _ _) as [st|e] eqn:Er; cbn [mbind result_bind];
      [apply FailureFacts.finish_not_InvalidInput|].
    all: intros [= ->]; by eapply FailureFacts.run_not_InvalidInput.
  - intros [Hx|[Ht Ho]]; [by destruct xpath|].
    destruct xpath; try done. rewrite Ht. by destruct origin.
Qed.

Lemma InvalidInput_iff_arguments_witness :
  Client.parse_xpath_to_gnmi_path (Py.Str "a") (Py.Bool true) = Raise InvalidInput.
Proof.
  apply InvalidInput_iff_arguments. right. split; reflexivity.
Defined.

(** X3: an origin that is a non-empty string only labels the result:
    the parse fails as it does without an origin, and where it succeeds
    it returns the same elements under that origin. *)
Theorem origin_only_labels (xpath o : string) :
  o ≠ "" →
  Client.parse_xpath_to_gnmi_path (Py.Str xpath) (Py.Str o)
  = match Client.parse xpath with
    | Ok p => Ok {| origin := Some o; elem := elem p |}
    | Raise e => Raise e
    end.
Proof.
  intros Ho. unfold Client.parse, Client.parse_xpath_to_gnmi_path, Client.check_origin.
  assert (Py.truthy (Py.Str o) = true) as -> by by destruct o.
  cbn [Py.truthy mbind result_bind].
  destruct (Client.run _ _) as [st|e]; cbn [mbind result_bind]; [|done].
  unfold Client.finish. ClientFacts.step_cases; done.
Qed.

Lemma origin_only_labels_witness :
  Client.parse_xpath_to_gnmi_path (Py.Str "a/b") (Py.Str "openconfig")
  = Ok {| origin := Some "openconfig";
          elem := [ Simple.named "a"; Simple.named "b" ] |}.
Proof. apply (origin_only_labels "a/b" "openconfig"). discriminate. Defined.

(** X4: a path that is returned has one element more than the tokens of
    the expression have slashes, inside brackets or not; so it is never
    empty. *)
Theorem parse_element_count (xpath : string) (origin : Py.obj) (p : Path) :
  Client.parse_xpath_to_gnmi_path (Py.Str xpath) origin = Ok p →
  length (elem p)
  = S (Render.slash_count (Tokenizer.findall (Py.strip "/" xpath))).
Proof.
  unfold Client.parse_xpath_to_gnmi_path.
  destruct (Client.check_origin origin) as [o|]; cbn [mbind result_bind]; [|done].
  destruct (Client.run _ _) as [st|] eqn:E; cbn [mbind result_bind]; [|done].
  apply FailureFacts.run_length in E. cbn in E.
  unfold Client.finish, PathElem_truthy.
  ClientFacts.step_cases; intros [= <-]. cbn [elem].
  rewrite length_app, E. cbn. lia.
Qed.

Lemma parse_element_count_witness :
  length [ Simple.named "a"; {| name := "b"; key := {[ "k" := "x" ]} |};
           Simple.named "c" ]
  = S (Render.slash_count (Tokenizer.findall (Py.strip "/" "a/b[k='x']/c"))).
Proof.
  apply (parse_element_count "a/b[k='x']/c" Py.None_
           {| origin := None;
              elem := [ Simple.named "a"; {| name := "b"; key := {[ "k" := "x" ]} |};
                        Simple.named "c" ] |}).
  vm_compute. reflexivity.
Defined.

(** ** The text of a path with filters, and back *)

Module RenderFacts.

Import Tokenizer Simple Render.

Lemma app_assoc (a b c : string) : (a +:+ b) +:+ c = a +:+ (b +:+ c).
Proof.
  induction a as [|x a IH]; [done|].
  by rewrite !TokenizerFacts.app_cons, IH.
Qed.

(** *** One token at a time *)

Lemma match_token_name_before n r :
  simple_name n = true → boundary r →
  match_token (n +:+ r) = Some (("", n), r).
Proof.
  intros Hn Hr. pose proof (SimpleFacts.simple_name_chars _ Hn) as Hall.
  destruct n as [|c n]; [done|]. cbn in Hn.
  apply andb_true_iff in Hn as [Hc _].
  rewrite TokenizerFacts.app_cons.
  unfold match_token. rewrite (SimpleFacts.match_group1_name_start _ _ Hc).
  apply SimpleFacts.name_start_spec in Hc as [(_ & Hd & _)%SimpleFacts.name_char_spec _].
  unfold match_group2. cbn [first_match match_braced].
  replace (Ascii.eqb c "{") with false
    by (symmetry; rewrite Ascii.eqb_sym; by apply (SimpleFacts.in_chars_eqb _ _ _ Hd)).
  unfold match_tag. rewrite <- TokenizerFacts.app_cons.
  rewrite SimpleFacts.span_app; [done| |done].
  eapply SimpleFacts.all_chars_impl, Hall. apply SimpleFacts.name_char_tag_char.
Qed.

Lemma match_token_open r : match_token (String "[" r) = Some (("[", ""), r).
Proof. reflexivity. Qed.

Lemma match_token_close r : match_token (String "]" r) = Some (("]", ""), r).
Proof. reflexivity. Qed.

Lemma match_token_equals r : match_token (String "=" r) = Some (("=", ""), r).
Proof. reflexivity. Qed.

Lemma value_char_not_squote c :
  value_char c = true → negb (Ascii.eqb c squote) = true.
Proof. unfold value_char. by intros [? _]%andb_true_iff. Qed.

Lemma match_token_quoted v r :
  all_chars value_char v = true →
  match_token (quoted v +:+ r) = Some ((quoted v, ""), r).
Proof.
  intros Hv. unfold quoted. rewrite TokenizerFacts.app_cons, app_assoc.
  rewrite TokenizerFacts.app_cons.
  change (EmptyString +:+ r) with r.
  unfold match_token, match_group1, group1_alts. cbn [first_match match_quoted].
  rewrite Ascii.eqb_refl.
  rewrite SimpleFacts.span_app; [done| |].
  - eapply SimpleFacts.all_chars_impl, Hv. apply value_char_not_squote.
  - right. exists squote, r. split; [done|]. by rewrite Ascii.eqb_refl.
Qed.

Lemma match_token_space c s :
  name_start c = true →
  match_token (String " " (String c s)) = Some (("", ""), String c s).
Proof.
  intros [(Hs & _)%SimpleFacts.name_char_spec _]%SimpleFacts.name_start_spec.
  unfold match_token.
  change (match_group1 (String " " (String c s))) with (@None (string * string)).
  change (match_group2 (String " " (String c s))) with (@None (string * string)).
  unfold match_space. cbn [span].
  change (Py.is_space " ") with true. cbv iota. by rewrite Hs.
Qed.

(** *** The tokens of a rendered text, [r] being what follows it *)

Lemma simple_head n r :
  simple_name n = true → ∃ c s, n +:+ r = String c s ∧ name_start c = true.
Proof.
  destruct n as [|c n]; [done|]. cbn [simple_name].
  intros [Hc _]%andb_true_iff. rewrite TokenizerFacts.app_cons. by eexists c, _.
Qed.

Lemma render_clause_app c r :
  render_clause c +:+ r = c.1 +:+ String "=" (quoted c.2 +:+ r).
Proof. unfold render_clause. by rewrite !app_assoc. Qed.

Lemma findall_clause c r :
  wf_clause c →
  findall (render_clause c +:+ r) = clause_tokens c ++ findall r.
Proof.
  intros (Hk & _ & Hv). rewrite render_clause_app.
  erewrite TokenizerFacts.findall_match; cycle 1.
  { apply match_token_name_before; [done|]. right. by eexists "="%char, _. }
  erewrite TokenizerFacts.findall_match by apply match_token_equals.
  erewrite TokenizerFacts.findall_match by by apply match_token_quoted.
  done.
Qed.

Lemma join_and_cons c d g :
  join " and " (c :: d :: g) = c +:+ " and " +:+ join " and " (d :: g).
Proof. reflexivity. Qed.

Lemma join_head_app sep x l r : ∃ t, join sep (x :: l) +:+ r = x +:+ t.
Proof.
  destruct l as [|y l]; [by exists r|].
  exists (sep +:+ join sep (y :: l) +:+ r).
  change (join sep (x :: y :: l)) with (x +:+ sep +:+ join sep (y :: l)).
  by rewrite !app_assoc.
Qed.

Lemma clauses_head c g r :
  simple_name c.1 = true →
  ∃ x s, join " and " (map render_clause (c :: g)) +:+ r = String x s
         ∧ name_start x = true.
Proof.
  intros Hk. cbn [map].
  destruct (join_head_app " and " (render_clause c) (map render_clause g) r)
    as [t ->].
  rewrite render_clause_app. by apply simple_head.
Qed.

Lemma findall_junction x s :
  name_start x = true →
  findall (" and " +:+ String x s) = junction_tokens ++ findall (String x s).
Proof.
  intros Hx.
  change (" and " +:+ String x s)
    with (String " " ("and" +:+ String " " (String x s))).
  erewrite TokenizerFacts.findall_match by by apply match_token_space.
  assert (boundary (String " " (String x s))) as Hb.
  { right. by eexists " "%char, _. }
  pose proof (match_token_name_before "and" _ eq_refl Hb) as Hand.
  erewrite TokenizerFacts.findall_match by exact Hand.
  erewrite TokenizerFacts.findall_match by by apply match_token_space.
  done.
Qed.

Lemma findall_clauses g r :
  Forall wf_clause g →
  findall (join " and " (map render_clause g) +:+ r)
  = clauses_tokens g ++ findall r.
Proof.
  induction 1 as [|c g Hc Hg IH]; [done|].
  destruct g as [|d g].
  - by apply findall_clause.
  - cbn [map] in *. rewrite join_and_cons, !app_assoc.
    rewrite findall_clause by done.
    cbn [clauses_tokens]. rewrite <- !(assoc_L (++)). f_equal.
    apply Forall_cons in Hg as [(Hd & _) _].
    destruct (clauses_head d g r Hd) as (x & s & E & Hx). cbn [map] in E.
    rewrite E, findall_junction by done. by rewrite <- E, IH.
Qed.

Lemma findall_group g r :
  Forall wf_clause g →
  findall (render_group g +:+ r) = group_tokens g ++ findall r.
Proof.
  intros Hg. unfold render_group, group_tokens. rewrite !app_assoc.
  change ("[" +:+ ?t) with (String "[" t).
  erewrite TokenizerFacts.findall_match by apply match_token_open.
  rewrite findall_clauses by done. cbn [app]. f_equal.
  rewrite <- (assoc_L (++)). f_equal.
Qed.

Lemma findall_groups gs r :
  Forall wf_clause (concat gs) →
  findall (render_groups gs +:+ r) = flat_map group_tokens gs ++ findall r.
Proof.
  induction gs as [|g gs IH]; [done|]. cbn [concat].
  intros [Hg Hgs]%Forall_app. cbn [render_groups foldr flat_map].
  rewrite app_assoc, findall_group by done.
  rewrite <- (assoc_L (++)). f_equal. by apply IH.
Qed.

Lemma render_groups_boundary gs r : boundary r → boundary (render_groups gs +:+ r).
Proof.
  intros Hr. destruct gs as [|g gs]; [done|].
  right. cbn [render_groups foldr]. unfold render_group.
  rewrite !app_assoc. by eexists "["%char, _.
Qed.

Lemma findall_element e r :
  wf_element e → boundary r →
  findall (render_element e +:+ r) = element_tokens e ++ findall r.
Proof.
  intros (Hn & Hc & _) Hr. unfold render_element, element_tokens.
  rewrite app_assoc.
  erewrite TokenizerFacts.findall_match
    by (apply match_token_name_before; [done|by apply render_groups_boundary]).
  cbn [app]. f_equal. by apply findall_groups.
Qed.

Lemma render_head e es :
  wf_element e → ∃ c s, render (e :: es) = String c s ∧ name_start c = true.
Proof.
  intros (Hn & _). unfold render. cbn [map].
  destruct (join_head_app "/" (render_element e) (map render_element es) EmptyString)
    as [t E].
  rewrite TokenizerFacts.app_empty_r in E. rewrite E.
  unfold render_element. rewrite app_assoc. by apply simple_head.
Qed.

Lemma render_cons e e' es :
  render (e :: e' :: es) = render_element e +:+ String "/" (render (e' :: es)).
Proof. reflexivity. Qed.

Lemma findall_render es :
  Forall wf_element es → findall (render es) = path_tokens es.
Proof.
  induction 1 as [|e es He Hes IH]; [done|].
  destruct es as [|e' es].
  - unfold render. cbn [map join path_tokens].
    rewrite <- (TokenizerFacts.app_empty_r (render_element e)).
    rewrite findall_element; [|done|by left].
    by rewrite TokenizerFacts.findall_empty, app_nil_r.
  - rewrite render_cons. cbn [path_tokens].
    rewrite findall_element; [|done|right; by eexists "/"%char, _]. f_equal.
    apply Forall_cons in Hes as [He' _].
    destruct (render_head e' es He') as (c & s & E & Hc).
    rewrite E.
    erewrite TokenizerFacts.findall_match by by apply SimpleFacts.match_token_slash.
    by rewrite <- E, IH.
Qed.

(** *** The loop over the tokens of a rendered text *)

Lemma run_app a b st :
  Client.run st (a ++ b) = Client.run st a ≫= λ st', Client.run st' b.
Proof.
  revert st. induction a as [|t a IH]; intros st; [done|].
  cbn [app]. destruct (Client.step st t) as [st1|e] eqn:E.
  - rewrite !(ClientFacts.run_cons_Ok _ _ _ _ E). apply IH.
  - by rewrite !(ClientFacts.run_cons_Raise _ _ _ _ E).
Qed.

Lemma run_app_Ok a b st st1 :
  Client.run st a = Ok st1 → Client.run st (a ++ b) = Client.run st1 b.
Proof. intros H. by rewrite run_app, H. Qed.

Lemma strip_quoted v :
  all_chars value_char v = true →
  Py.strip (String squote (String dquote EmptyString)) (quoted v) = v.
Proof.
  intros Hv. unfold quoted. rewrite StripFacts.strip_cons by done.
  rewrite StripFacts.strip_snoc by done.
  assert (all_chars
            (λ c, negb (Py.in_chars c (String squote (String dquote EmptyString))))
            v = true) as Hclean.
  { eapply SimpleFacts.all_chars_impl, Hv. intros c. unfold value_char. cbn.
    rewrite orb_false_r, negb_orb. done. }
  unfold Py.strip.
  assert (Py.lstrip (String squote (String dquote EmptyString)) v = v) as ->.
  { destruct v as [|c v]; [done|]. cbn [all_chars Py.lstrip] in *.
    apply andb_true_iff in Hclean as [Hc _]. apply negb_true_iff in Hc.
    by rewrite Hc. }
  by apply SimpleFacts.rstrip_clean.
Qed.

Lemma step_key st k :
  Client.in_filter st = true → Client.curr_key st = None →
  simple_name k = true → k ≠ "and" →
  Client.step st ("", k)
  = Ok {| Client.path_elem := Client.path_elem st;
          Client.curr_elem := Client.curr_elem st;
          Client.in_filter := Client.in_filter st;
          Client.just_filtered := Client.just_filtered st;
          Client.curr_key := Some k |}.
Proof.
  intros Hf Hk Hn Hand. unfold Client.step.
  rewrite Hf, Hk, (SimpleFacts.simple_name_nonempty _ Hn).
  rewrite (bool_decide_eq_false_2 (k = "and")) by done.
  cbn. by rewrite andb_false_r.
Qed.

Lemma step_equals st k :
  Client.in_filter st = true → Client.curr_key st = Some k →
  Client.step st ("=", "") = Ok st.
Proof. intros Hf Hk. unfold Client.step. rewrite Hf, Hk. cbn. by rewrite andb_false_r. Qed.

Lemma step_value st k v :
  Client.in_filter st = true → Client.curr_key st = Some k →
  key (Client.curr_elem st) !! k = None →
  all_chars value_char v = true →
  Client.step st (quoted v, "")
  = Ok {| Client.path_elem := Client.path_elem st;
          Client.curr_elem :=
            {| name := name (Client.curr_elem st);
               key := <[ k := v ]> (key (Client.curr_elem st)) |};
          Client.in_filter := Client.in_filter st;
          Client.just_filtered := true;
          Client.curr_key := None |}.
Proof.
  intros Hf Hk Hin Hv. unfold Client.step.
  rewrite Hf, Hk, (strip_quoted _ Hv).
  apply ClientFacts.in_keys_false in Hin. rewrite Hin.
  rewrite !(bool_decide_eq_false_2 (quoted v = _)) by (by intros [=]).
  cbn. by rewrite andb_false_r.
Qed.

Lemma step_blank st :
  Client.in_filter st = true → Client.step st ("", "") = Ok st.
Proof. intros Hf. unfold Client.step. by rewrite Hf. Qed.

Lemma step_and st :
  Client.in_filter st = true → Client.just_filtered st = true →
  Client.step st ("", "and")
  = Ok {| Client.path_elem := Client.path_elem st;
          Client.curr_elem := Client.curr_elem st;
          Client.in_filter := Client.in_filter st;
          Client.just_filtered := false;
          Client.curr_key := Client.curr_key st |}.
Proof. intros Hf Hj. unfold Client.step. by rewrite Hf, Hj. Qed.

Lemma step_name st n :
  Client.in_filter st = false →
  Client.step st ("", n)
  = Ok {| Client.path_elem := Client.path_elem st;
          Client.curr_elem := {| name := n; key := key (Client.curr_elem st) |};
          Client.in_filter := Client.in_filter st;
          Client.just_filtered := Client.just_filtered st;
          Client.curr_key := Client.curr_key st |}.
Proof. intros Hf. unfold Client.step. cbn. by rewrite Hf. Qed.

Lemma run_clause st els n m c :
  at_rest st els n m true → wf_clause c → m !! c.1 = None →
  ∃ st', Client.run st (clause_tokens c) = Ok st'
         ∧ at_rest st' els n (<[ c.1 := c.2 ]> m) true
         ∧ Client.just_filtered st' = true.
Proof.
  intros (He & Hn & Hm & Hf & Hk) (Hs & Hand & Hv) Hin.
  eexists. split.
  - unfold clause_tokens.
    erewrite ClientFacts.run_cons_Ok by by apply step_key.
    erewrite ClientFacts.run_cons_Ok by by eapply step_equals.
    erewrite ClientFacts.run_cons_Ok; [done|].
    apply step_value; cbn; [done|done| |done]. by rewrite Hm.
  - cbn. by rewrite He, Hn, Hm.
Qed.

Lemma run_junction st els n m :
  at_rest st els n m true → Client.just_filtered st = true →
  ∃ st', Client.run st junction_tokens = Ok st' ∧ at_rest st' els n m true.
Proof.
  intros (He & Hn & Hm & Hf & Hk) Hj. eexists. split.
  - unfold junction_tokens.
    erewrite ClientFacts.run_cons_Ok by by apply step_blank.
    erewrite ClientFacts.run_cons_Ok by by apply step_and.
    erewrite ClientFacts.run_cons_Ok; [done|]. by apply step_blank.
  - done.
Qed.

Lemma run_clauses g : ∀ st els n m,
  at_rest st els n m true → Forall wf_clause g → NoDup g.*1 →
  (∀ k, k ∈ g.*1 → m !! k = None) →
  ∃ st', Client.run st (clauses_tokens g) = Ok st'
         ∧ at_rest st' els n (store m g) true.
Proof.
  induction g as [|c g IH]; intros st els n m Hst Hwf Hnd Hm.
  { by exists st. }
  apply Forall_cons in Hwf as [Hc Hg].
  cbn [fmap list_fmap] in Hnd, Hm. apply NoDup_cons in Hnd as [Hc1 Hnd].
  destruct (run_clause _ _ _ _ c Hst Hc) as (st1 & E1 & Hst1 & Hj1).
  { apply Hm. by left. }
  destruct g as [|d g].
  { exists st1. by split. }
  destruct (run_junction _ _ _ _ Hst1 Hj1) as (st2 & E2 & Hst2).
  destruct (IH _ _ _ _ Hst2 Hg Hnd) as (st3 & E3 & Hst3).
  { intros k Hk. rewrite lookup_insert_ne; [apply Hm; by right|].
    intros <-. by apply Hc1. }
  exists st3. split; [|done].
  cbn [clauses_tokens].
  by rewrite (run_app_Ok _ _ _ _ E1), (run_app_Ok _ _ _ _ E2).
Qed.

Lemma store_lookup_None g : ∀ m k,
  m !! k = None → k ∉ g.*1 → store m g !! k = None.
Proof.
  induction g as [|c g IH]; intros m k Hm Hk; [done|].
  cbn [store foldl]. cbn [fmap list_fmap] in Hk.
  apply not_elem_of_cons in Hk as [Hkc Hk].
  apply IH; [|done]. by rewrite lookup_insert_ne.
Qed.

Lemma store_app m g h : store m (g ++ h) = store (store m g) h.
Proof. apply foldl_app. Qed.

Lemma store_list_to_map g : ∀ m,
  NoDup g.*1 → (∀ k, k ∈ g.*1 → m !! k = None) →
  store m g = list_to_map g ∪ m.
Proof.
  induction g as [|[k v] g IH]; intros m Hnd Hm.
  { cbn. by rewrite (left_id_L ∅ (∪)). }
  cbn [fmap list_fmap fst] in Hnd, Hm. apply NoDup_cons in Hnd as [Hk Hnd].
  cbn [store foldl list_to_map foldr]. fold (store (<[k:=v]> m) g).
  rewrite IH; [|done|].
  - cbn. rewrite <- insert_union_l. symmetry. apply insert_union_r.
    by apply not_elem_of_list_to_map_1.
  - intros k' Hk'. rewrite lookup_insert_ne; [apply Hm; by right|].
    by intros <-.
Qed.

Lemma run_group g st els n m f :
  at_rest st els n m f → Forall wf_clause g → NoDup g.*1 →
  (∀ k, k ∈ g.*1 → m !! k = None) →
  ∃ st', Client.run st (group_tokens g) = Ok st'
         ∧ at_rest st' els n (store m g) false.
Proof.
  intros (He & Hn & Hm & Hf & Hk) Hwf Hnd Hin.
  set (st0 := {| Client.path_elem := Client.path_elem st;
                 Client.curr_elem := Client.curr_elem st;
                 Client.in_filter := true;
                 Client.just_filtered := Client.just_filtered st;
                 Client.curr_key := Client.curr_key st |}).
  assert (at_rest st0 els n m true) as Hst0 by done.
  destruct (run_clauses g _ _ _ _ Hst0 Hwf Hnd Hin)
    as (st1 & E1 & (He1 & Hn1 & Hm1 & Hf1 & Hk1)).
  eexists. split.
  - unfold group_tokens.
    erewrite ClientFacts.run_cons_Ok by reflexivity. fold st0.
    rewrite (run_app_Ok _ _ _ _ E1).
    erewrite ClientFacts.run_cons_Ok by reflexivity. done.
  - done.
Qed.

Lemma run_groups gs : ∀ st els n m,
  at_rest st els n m false → Forall wf_clause (concat gs) →
  NoDup (concat gs).*1 → (∀ k, k ∈ (concat gs).*1 → m !! k = None) →
  ∃ st', Client.run st (flat_map group_tokens gs) = Ok st'
         ∧ at_rest st' els n (store m (concat gs)) false.
Proof.
  induction gs as [|g gs IH]; intros st els n m Hst Hwf Hnd Hm.
  { by exists st. }
  cbn [concat] in *. rewrite fmap_app in Hnd, Hm.
  apply Forall_app in Hwf as [Hg Hgs].
  apply NoDup_app in Hnd as (Hndg & Hdisj & Hndgs).
  destruct (run_group g _ _ _ _ _ Hst Hg Hndg) as (st1 & E1 & Hst1).
  { intros k Hk. apply Hm, elem_of_app. by left. }
  destruct (IH _ _ _ _ Hst1 Hgs Hndgs) as (st2 & E2 & Hst2).
  { intros k Hk. apply store_lookup_None.
    - apply Hm, elem_of_app. by right.
    - intros Hkg. by eapply Hdisj. }
  exists st2. split.
  - cbn [flat_map]. by rewrite (run_app_Ok _ _ _ _ E1).
  - by rewrite store_app.
Qed.

Lemma run_element e st els n0 :
  at_rest st els n0 ∅ false → wf_element e →
  ∃ st', Client.run st (element_tokens e) = Ok st'
         ∧ at_rest st' els e.1 (key (to_PathElem e)) false.
Proof.
  intros (He & Hn & Hm & Hf & Hk) (Hs & Hwf & Hnd).
  set (st0 := {| Client.path_elem := Client.path_elem st;
                 Client.curr_elem := {| name := e.1; key := key (Client.curr_elem st) |};
                 Client.in_filter := Client.in_filter st;
                 Client.just_filtered := Client.just_filtered st;
                 Client.curr_key := Client.curr_key st |}).
  assert (at_rest st0 els e.1 ∅ false) as Hst0 by done.
  destruct (run_groups e.2 _ _ _ _ Hst0 Hwf Hnd) as (st1 & E1 & Hst1); [done|].
  exists st1. split.
  - unfold element_tokens. erewrite ClientFacts.run_cons_Ok; [exact E1|].
    by apply step_name.
  - cbn [to_PathElem key]. fold (clauses e) in Hst1.
    rewrite store_list_to_map in Hst1 by done.
    by rewrite (right_id_L ∅ (∪)) in Hst1.
Qed.

Lemma run_path o es : ∀ st els n0,
  es ≠ [] → Forall wf_element es → at_rest st els n0 ∅ false →
  Client.run st (path_tokens es) ≫= Client.finish o
  = Ok {| origin := o; elem := els ++ map to_PathElem es |}.
Proof.
  induction es as [|e es IH]; intros st els n0 Hne Hwf Hst; [done|].
  apply Forall_cons in Hwf as [He Hes].
  destruct (run_element e _ _ _ Hst He) as (st1 & E1 & (Hp1 & Hn1 & Hm1 & Hf1 & Hk1)).
  assert (Client.curr_elem st1 = to_PathElem e) as Hcur.
  { destruct (Client.curr_elem st1). cbn in *. by subst. }
  destruct es as [|e' es].
  - cbn [path_tokens map]. rewrite E1. cbn [mbind result_bind].
    unfold Client.finish, PathElem_truthy. rewrite Hk1, Hf1. cbn.
    by rewrite Hp1, Hcur.
  - cbn [path_tokens]. rewrite (run_app_Ok _ _ _ _ E1).
    erewrite ClientFacts.run_cons_Ok; cycle 1.
    { unfold Client.step. cbn. rewrite Hn1.
      destruct He as (Hs & _). by rewrite (SimpleFacts.simple_name_nonempty _ Hs). }
    rewrite (IH _ (els ++ [to_PathElem e]) EmptyString); [|done|done|].
    + cbn [map]. by rewrite <- (assoc_L (++)).
    + repeat split; cbn; [by rewrite Hp1, Hcur|done..].
Qed.

(** *** Nothing to strip *)

Lemma keeps_end_app a b : keeps_end b → keeps_end (a +:+ b).
Proof.
  intros [Hb Hne]. split.
  - rewrite SimpleFacts.rstrip_app; by rewrite Hb.
  - destruct a; [done|]. by rewrite TokenizerFacts.app_cons.
Qed.

Lemma keeps_end_name n : simple_name n = true → keeps_end n.
Proof.
  intros Hn. split; [|by destruct n].
  apply SimpleFacts.rstrip_clean.
  eapply SimpleFacts.all_chars_impl, SimpleFacts.simple_name_chars, Hn.
  apply SimpleFacts.name_char_not_slash.
Qed.

Lemma keeps_end_groups g gs : keeps_end (render_groups (g :: gs)).
Proof.
  revert g. induction gs as [|g' gs IH]; intros g; cbn [render_groups foldr].
  - rewrite TokenizerFacts.app_empty_r. unfold render_group.
    by do 2 apply keeps_end_app.
  - apply keeps_end_app, IH.
Qed.

Lemma keeps_end_element e : wf_element e → keeps_end (render_element e).
Proof.
  intros (Hn & _). unfold render_element. destruct e.2 as [|g gs].
  - cbn. rewrite TokenizerFacts.app_empty_r. by apply keeps_end_name.
  - apply keeps_end_app, keeps_end_groups.
Qed.

Lemma keeps_end_render es :
  es ≠ [] → Forall wf_element es → keeps_end (render es).
Proof.
  intros Hne Hwf. induction Hwf as [|e es He Hes IH]; [done|].
  destruct es as [|e' es].
  - by apply keeps_end_element.
  - rewrite render_cons. apply keeps_end_app.
    change (String "/" ?t) with ("/" +:+ t). by apply keeps_end_app, IH.
Qed.

Lemma strip_render es :
  es ≠ [] → Forall wf_element es → Py.strip "/" (render es) = render es.
Proof.
  intros Hne Hwf. destruct (keeps_end_render es Hne Hwf) as [Hr _].
  destruct es as [|e es]; [done|]. apply Forall_cons in Hwf as [He _].
  destruct (render_head e es He) as (c & s & E & Hc).
  unfold Py.strip.
  assert (Py.lstrip "/" (render (e :: es)) = render (e :: es)) as ->; [|done].
  rewrite E. cbn [Py.lstrip].
  apply SimpleFacts.name_start_spec in Hc as [Hc%SimpleFacts.name_char_not_slash _].
  apply negb_true_iff in Hc. by rewrite Hc.
Qed.

(** The parse of a rendered path, for any origin already checked. *)
Lemma parse_render_with es :
  es ≠ [] → Forall wf_element es →
  Client.parse (render es) = Ok {| origin := None; elem := map to_PathElem es |}.
Proof.
  intros Hne Hwf.
  unfold Client.parse, Client.parse_xpath_to_gnmi_path.
  cbn [Client.check_origin Py.truthy]. cbn [mbind result_bind].
  rewrite strip_render, findall_render by done.
  by apply (run_path None es Client.init [] EmptyString).
Qed.

(** *** A value without quotes *)

Lemma step_unquoted st k v :
  Client.in_filter st = true → Client.curr_key st = Some k →
  Client.just_filtered st = false →
  key (Client.curr_elem st) !! k = None → simple_name v = true →
  Client.step st ("", v)
  = Ok {| Client.path_elem := Client.path_elem st;
          Client.curr_elem :=
            {| name := name (Client.curr_elem st);
               key := <[ k := "" ]> (key (Client.curr_elem st)) |};
          Client.in_filter := Client.in_filter st;
          Client.just_filtered := true;
          Client.curr_key := None |}.
Proof.
  intros Hf Hk Hj Hin Hv. unfold Client.step.
  rewrite Hf, Hk, Hj, (SimpleFacts.simple_name_nonempty _ Hv).
  apply ClientFacts.in_keys_false in Hin. by rewrite Hin.
Qed.

Lemma findall_unquoted n k v :
  simple_name n = true → simple_name k = true → simple_name v = true →
  findall (n +:+ "[" +:+ k +:+ "=" +:+ v +:+ "]")
  = [("", n); ("[", ""); ("", k); ("=", ""); ("", v); ("]", "")].
Proof.
  intros Hn Hk Hv.
  erewrite TokenizerFacts.findall_match; cycle 1.
  { apply match_token_name_before; [done|]. right. by eexists "["%char, _. }
  erewrite TokenizerFacts.findall_match by apply match_token_open.
  erewrite TokenizerFacts.findall_match; cycle 1.
  { apply match_token_name_before; [done|]. right. by eexists "="%char, _. }
  erewrite TokenizerFacts.findall_match by apply match_token_equals.
  erewrite TokenizerFacts.findall_match; cycle 1.
  { apply match_token_name_before; [done|]. right. by eexists "]"%char, _. }
  done.
Qed.

Lemma keeps_end_unquoted n k v :
  keeps_end (n +:+ "[" +:+ k +:+ "=" +:+ v +:+ "]").
Proof. by do 5 apply keeps_end_app. Qed.

(** *** More shapes of input *)

Lemma strip_keeps s c t :
  s = String c t → name_start c = true → keeps_end s → Py.strip "/" s = s.
Proof.
  intros E Hc [Hr _]. unfold Py.strip.
  assert (Py.lstrip "/" s = s) as ->; [|done].
  rewrite E. cbn [Py.lstrip].
  apply SimpleFacts.name_start_spec in Hc as [Hc%SimpleFacts.name_char_not_slash _].
  apply negb_true_iff in Hc. by rewrite Hc.
Qed.

Lemma findall_name_groups n gs :
  simple_name n = true → Forall wf_clause (concat gs) →
  findall (n +:+ render_groups gs) = ("", n) :: flat_map group_tokens gs.
Proof.
  intros Hn Hwf.
  rewrite <- (TokenizerFacts.app_empty_r (render_groups gs)).
  erewrite TokenizerFacts.findall_match
    by (apply match_token_name_before; [done|apply render_groups_boundary; by left]).
  f_equal. rewrite findall_groups by done.
  by rewrite TokenizerFacts.findall_empty, app_nil_r.
Qed.

Lemma step_value_duplicate st k v :
  Client.in_filter st = true → Client.curr_key st = Some k →
  is_Some (key (Client.curr_elem st) !! k) →
  Client.step st (quoted v, "") = Raise DuplicateKey.
Proof.
  intros Hf Hk Hin. unfold Client.step. rewrite Hf, Hk.
  apply ClientFacts.in_keys_true in Hin. rewrite Hin.
  rewrite !(bool_decide_eq_false_2 (quoted v = _)) by (by intros [=]).
  cbn. by rewrite andb_false_r.
Qed.

Lemma run_duplicate st els n m c rest :
  at_rest st els n m true → wf_clause c → is_Some (m !! c.1) →
  Client.run st (clause_tokens c ++ rest) = Raise DuplicateKey.
Proof.
  intros (He & Hn & Hm & Hf & Hk) (Hs & Hand & _) Hin.
  unfold clause_tokens. cbn [app].
  erewrite ClientFacts.run_cons_Ok by by apply step_key.
  erewrite ClientFacts.run_cons_Ok by by eapply step_equals.
  apply ClientFacts.run_cons_Raise.
  apply (step_value_duplicate _ c.1); cbn; [done|done|]. by rewrite Hm.
Qed.

Lemma at_rest_init : at_rest Client.init [] EmptyString ∅ false.
Proof. done. Qed.

Lemma step_name_rest st els n0 m n :
  at_rest st els n0 m false →
  ∃ st', Client.step st ("", n) = Ok st' ∧ at_rest st' els n m false.
Proof.
  intros (He & Hn & Hm & Hf & Hk). eexists. split; [by apply step_name|done].
Qed.

Lemma step_open_rest st els n m f :
  at_rest st els n m f →
  ∃ st', Client.step st ("[", "") = Ok st' ∧ at_rest st' els n m true
         ∧ Client.just_filtered st' = Client.just_filtered st.
Proof. intros (He & Hn & Hm & Hf & Hk). eexists. split; [reflexivity|done]. Qed.

Lemma step_key_first st k :
  Client.in_filter st = true → Client.curr_key st = None →
  Client.just_filtered st = false → simple_name k = true →
  Client.step st ("", k)
  = Ok {| Client.path_elem := Client.path_elem st;
          Client.curr_elem := Client.curr_elem st;
          Client.in_filter := Client.in_filter st;
          Client.just_filtered := Client.just_filtered st;
          Client.curr_key := Some k |}.
Proof.
  intros Hf Hk Hj Hn. unfold Client.step.
  by rewrite Hf, Hk, Hj, (SimpleFacts.simple_name_nonempty _ Hn).
Qed.

(** The tokens of [n[k], of [n[k=] and of [n[k='v']. *)
Lemma findall_open_key n k :
  simple_name n = true → simple_name k = true →
  findall (n +:+ "[" +:+ k) = [("", n); ("[", ""); ("", k)].
Proof.
  intros Hn Hk.
  erewrite TokenizerFacts.findall_match; cycle 1.
  { apply match_token_name_before; [done|]. right. by eexists "["%char, _. }
  erewrite TokenizerFacts.findall_match by apply match_token_open.
  rewrite <- (TokenizerFacts.app_empty_r k) at 1.
  by erewrite TokenizerFacts.findall_match
    by (apply match_token_name_before; [done|by left]).
Qed.

Lemma findall_open_equals n k :
  simple_name n = true → simple_name k = true →
  findall (n +:+ "[" +:+ k +:+ "=") = [("", n); ("[", ""); ("", k); ("=", "")].
Proof.
  intros Hn Hk.
  erewrite TokenizerFacts.findall_match; cycle 1.
  { apply match_token_name_before; [done|]. right. by eexists "["%char, _. }
  erewrite TokenizerFacts.findall_match by apply match_token_open.
  by erewrite TokenizerFacts.findall_match
    by (apply match_token_name_before; [done|right; by eexists "="%char, _]).
Qed.

Lemma findall_open_clause n k v :
  simple_name n = true → simple_name k = true → all_chars value_char v = true →
  findall (n +:+ "[" +:+ k +:+ "=" +:+ quoted v)
  = [("", n); ("[", ""); ("", k); ("=", ""); (quoted v, "")].
Proof.
  intros Hn Hk Hv.
  erewrite TokenizerFacts.findall_match; cycle 1.
  { apply match_token_name_before; [done|]. right. by eexists "["%char, _. }
  erewrite TokenizerFacts.findall_match by apply match_token_open.
  erewrite TokenizerFacts.findall_match; cycle 1.
  { apply match_token_name_before; [done|]. right. by eexists "="%char, _. }
  erewrite TokenizerFacts.findall_match by apply match_token_equals.
  rewrite <- (TokenizerFacts.app_empty_r (quoted v)) at 1.
  by erewrite TokenizerFacts.findall_match by by apply match_token_quoted.
Qed.

Lemma keeps_end_quoted v : keeps_end (quoted v).
Proof.
  unfold quoted. rewrite <- TokenizerFacts.app_cons. by apply keeps_end_app.
Qed.

End RenderFacts.

(** ** Filters with quoted values *)

(** X5: the text of a path parses back to the path.  For a non-empty
    list of elements, each a simple name with bracket groups of clauses
    [k='v'] joined by [and], the keys simple names other than [and] and
    no key twice in an element, the values free of quotes (slashes,
    brackets and spaces allowed): the parse of the rendered text
    succeeds with one element per element, in order, named by its name
    and holding exactly its clauses as keys. *)
Theorem parse_render (es : list Render.element) :
  es ≠ [] → Forall Render.wf_element es →
  Client.parse (Render.render es)
  = Ok {| origin := None; elem := map Render.to_PathElem es |}.
Proof. apply RenderFacts.parse_render_with. Qed.

Lemma parse_render_witness :
  Client.parse "interfaces/interface[name='Ethernet1/1' and unit='0'][vrf='a b']/state"
  = Ok {| origin := None;
          elem := [ Simple.named "interfaces";
                    {| name := "interface";
                       key := {[ "name" := "Ethernet1/1"; "unit" := "0";
                                 "vrf" := "a b" ]} |};
                    Simple.named "state" ] |}.
Proof.
  pose proof (parse_render
    [ ("interfaces", []);
      ("interface", [ [("name", "Ethernet1/1"); ("unit", "0")]; [("vrf", "a b")] ]);
      ("state", []) ]) as H.
  etrans; [apply H|by vm_compute].
  - discriminate.
  - repeat apply List.Forall_cons; try apply List.Forall_nil;
      (split; [reflexivity|split]);
      [ apply List.Forall_nil | apply NoDup_nil_2
      | repeat apply List.Forall_cons; try apply List.Forall_nil;
          (split; [reflexivity|split; [discriminate|reflexivity]])
      | apply (bool_decide_unpack _); by vm_compute
      | apply List.Forall_nil | apply NoDup_nil_2 ].
Defined.

(** X6: how the clauses of an element are spread over bracket groups
    makes no difference.  Two well-formed lists of elements with the
    same names and, element by element, the same clauses in the same
    order render to texts with the same parse. *)
Theorem parse_grouping_irrelevant (es es' : list Render.element) :
  es ≠ [] → Forall Render.wf_element es → Forall Render.wf_element es' →
  map (λ e, (e.1, Render.clauses e)) es = map (λ e, (e.1, Render.clauses e)) es' →
  Client.parse (Render.render es) = Client.parse (Render.render es').
Proof.
  intros Hne Hwf Hwf' Heq.
  assert (es' ≠ []) as Hne'.
  { destruct es, es'; done. }
  rewrite !RenderFacts.parse_render_with by done. do 2 f_equal.
  assert (∀ l : list Render.element,
            map Render.to_PathElem l
            = map (λ nc, {| name := nc.1; key := list_to_map nc.2 |})
                (map (λ e, (e.1, Render.clauses e)) l)) as Hmap.
  { intros l. rewrite map_map. by apply map_ext. }
  by rewrite !Hmap, Heq.
Qed.

Lemma parse_grouping_irrelevant_witness :
  Client.parse "intf[a='1'][b='2']" = Client.parse "intf[a='1' and b='2']".
Proof.
  apply (parse_grouping_irrelevant
           [ ("intf", [ [("a", "1")]; [("b", "2")] ]) ]
           [ ("intf", [ [("a", "1"); ("b", "2")] ]) ]).
  - discriminate.
  - apply List.Forall_cons; [|apply List.Forall_nil].
    split; [reflexivity|split].
    + repeat apply List.Forall_cons; try apply List.Forall_nil;
        (split; [reflexivity|split; [discriminate|reflexivity]]).
    + apply (bool_decide_unpack _). by vm_compute.
  - apply List.Forall_cons; [|apply List.Forall_nil].
    split; [reflexivity|split].
    + repeat apply List.Forall_cons; try apply List.Forall_nil;
        (split; [reflexivity|split; [discriminate|reflexivity]]).
    + apply (bool_decide_unpack _). by vm_compute.
  - reflexivity.
Defined.

(** X7: a filter value written without quotes is not stored.  For
    simple names [n], [k] and [v] the parse of [n[k=v]] succeeds with the
    single element [n] whose key [k] holds the empty string. *)
Theorem parse_unquoted_value (n k v : string) :
  Simple.simple_name n = true → Simple.simple_name k = true →
  Simple.simple_name v = true →
  Client.parse (n +:+ "[" +:+ k +:+ "=" +:+ v +:+ "]")
  = Ok {| origin := None; elem := [ {| name := n; key := {[ k := "" ]} |} ] |}.
Proof.
  intros Hn Hk Hv.
  unfold Client.parse, Client.parse_xpath_to_gnmi_path.
  cbn [Client.check_origin Py.truthy]. cbn [mbind result_bind].
  assert (Py.strip "/" (n +:+ "[" +:+ k +:+ "=" +:+ v +:+ "]")
          = n +:+ "[" +:+ k +:+ "=" +:+ v +:+ "]") as ->.
  { destruct (RenderFacts.keeps_end_unquoted n k v) as [Hr _].
    destruct (RenderFacts.simple_head n ("[" +:+ k +:+ "=" +:+ v +:+ "]") Hn)
      as (c & s & E & Hc).
    unfold Py.strip.
    assert (Py.lstrip "/" (n +:+ "[" +:+ k +:+ "=" +:+ v +:+ "]")
            = n +:+ "[" +:+ k +:+ "=" +:+ v +:+ "]") as ->; [|done].
    rewrite E. cbn [Py.lstrip].
    apply SimpleFacts.name_start_spec in Hc as [Hc%SimpleFacts.name_char_not_slash _].
    apply negb_true_iff in Hc. by rewrite Hc. }
  rewrite RenderFacts.findall_unquoted by done.
  erewrite ClientFacts.run_cons_Ok by by apply RenderFacts.step_name.
  erewrite ClientFacts.run_cons_Ok by reflexivity.
  erewrite ClientFacts.run_cons_Ok by by apply RenderFacts.step_key_first.
  erewrite ClientFacts.run_cons_Ok by by eapply RenderFacts.step_equals.
  erewrite ClientFacts.run_cons_Ok by by apply RenderFacts.step_unquoted.
  erewrite ClientFacts.run_cons_Ok by reflexivity.
  reflexivity.
Qed.

Lemma parse_unquoted_value_witness :
  Client.parse "interface[name=eth0]"
  = Ok {| origin := None;
          elem := [ {| name := "interface"; key := {[ "name" := "" ]} |} ] |}.
Proof.
  apply (parse_unquoted_value "interface" "name" "eth0"); reflexivity.
Defined.

(** X8: in a path that is returned, every element before the last has a
    non-empty name; the last is the element as it stood at the end of
    the input. *)
Theorem parse_names_before_last (xpath origin : Py.obj) (p : Path) :
  Client.parse_xpath_to_gnmi_path xpath origin = Ok p →
  ∃ last, elem p = removelast (elem p) ++ [last]
          ∧ Forall (λ e, Py.nonempty (name e) = true) (removelast (elem p)).
Proof. apply ClientFacts.parse_elements_before_last_named. Qed.

Lemma parse_names_before_last_witness :
  ∃ last, [ Simple.named "a"; new_PathElem ]
          = removelast [ Simple.named "a"; new_PathElem ] ++ [last]
          ∧ Forall (λ e, Py.nonempty (name e) = true)
              (removelast [ Simple.named "a"; new_PathElem ]).
Proof.
  apply (parse_names_before_last (Py.Str "a/ ") Py.None_
           {| origin := None; elem := [ Simple.named "a"; new_PathElem ] |}).
  vm_compute. reflexivity.
Defined.

(** X9: of two names parted by a space only the second is kept.  For
    simple names [a] and [b] the parse of [a b] succeeds with the single
    element [b]: outside a filter every token that is no slash and no
    bracket, the blank included, sets the name anew. *)
Theorem parse_last_name_wins (a b : string) :
  Simple.simple_name a = true → Simple.simple_name b = true →
  Client.parse (a +:+ " " +:+ b)
  = Ok {| origin := None; elem := [ Simple.named b ] |}.
Proof.
  intros Ha Hb.
  unfold Client.parse, Client.parse_xpath_to_gnmi_path.
  cbn [Client.check_origin Py.truthy]. cbn [mbind result_bind].
  destruct (RenderFacts.simple_head a (" " +:+ b) Ha) as (c & s & E & Hc).
  rewrite (RenderFacts.strip_keeps _ _ _ E Hc)
    by (do 2 apply RenderFacts.keeps_end_app; by apply RenderFacts.keeps_end_name).
  destruct (RenderFacts.simple_head b EmptyString Hb) as (d & t & Eb & Hd).
  rewrite TokenizerFacts.app_empty_r in Eb.
  erewrite TokenizerFacts.findall_match; cycle 1.
  { apply RenderFacts.match_token_name_before; [done|]. right. by eexists " "%char, _. }
  change (" " +:+ b) with (String " " b). rewrite Eb.
  erewrite TokenizerFacts.findall_match by by apply RenderFacts.match_token_space.
  rewrite <- Eb. rewrite <- (TokenizerFacts.app_empty_r b) at 1.
  erewrite TokenizerFacts.findall_match
    by (apply RenderFacts.match_token_name_before; [done|by left]).
  rewrite TokenizerFacts.findall_empty.
  erewrite ClientFacts.run_cons_Ok by by apply RenderFacts.step_name.
  erewrite ClientFacts.run_cons_Ok by by apply RenderFacts.step_name.
  erewrite ClientFacts.run_cons_Ok by by apply RenderFacts.step_name.
  reflexivity.
Qed.

Lemma parse_last_name_wins_witness :
  Client.parse "interfaces interface"
  = Ok {| origin := None; elem := [ Simple.named "interface" ] |}.
Proof. apply (parse_last_name_wins "interfaces" "interface"); reflexivity. Defined.

(** X10: a key given twice for one element fails the parse with the
    duplicate-key failure, in two bracket groups as in one group joined
    by [and], whatever the two values. *)
Theorem parse_duplicate_key (n k v w : string) :
  Simple.simple_name n = true → Render.wf_clause (k, v) → Render.wf_clause (k, w) →
  Client.parse (Render.render [ (n, [ [(k, v)]; [(k, w)] ]) ]) = Raise DuplicateKey
  ∧ Client.parse (Render.render [ (n, [ [(k, v); (k, w)] ]) ]) = Raise DuplicateKey.
Proof.
  intros Hn Hv Hw.
  assert (is_Some ((<[k:=v]> (∅ : gmap string string)) !! k)) as Hin.
  { exists v. apply lookup_insert_eq. }
  destruct (RenderFacts.step_name_rest _ _ _ _ n RenderFacts.at_rest_init)
    as (st0 & E0 & Hst0).
  split.
  - unfold Client.parse, Client.parse_xpath_to_gnmi_path.
    cbn [Client.check_origin Py.truthy]. cbn [mbind result_bind].
    unfold Render.render. cbn [map Simple.join]. unfold Render.render_element. cbn [fst snd].
    destruct (RenderFacts.simple_head n
                (Render.render_groups [[(k, v)]; [(k, w)]]) Hn) as (c & s & E & Hc).
    rewrite (RenderFacts.strip_keeps _ _ _ E Hc)
      by apply RenderFacts.keeps_end_app, RenderFacts.keeps_end_groups.
    rewrite RenderFacts.findall_name_groups
      by (done || by repeat apply List.Forall_cons).
    assert (Client.run Client.init
              (("", n) :: flat_map Render.group_tokens [[(k, v)]; [(k, w)]])
            = Raise DuplicateKey) as ->; [|done].
    rewrite (ClientFacts.run_cons_Ok _ _ _ _ E0).
    change (flat_map Render.group_tokens [[(k, v)]; [(k, w)]])
      with (Render.group_tokens [(k, v)]
            ++ ("[", "") :: Render.clause_tokens (k, w) ++ [("]", "")]).
    destruct (RenderFacts.run_group [(k, v)] _ _ _ _ _ Hst0) as (st1 & E1 & Hst1).
    { by apply List.Forall_cons. }
    { apply NoDup_singleton. }
    { done. }
    rewrite (RenderFacts.run_app_Ok _ _ _ _ E1).
    destruct (RenderFacts.step_open_rest _ _ _ _ _ Hst1) as (st2 & E2 & Hst2 & _).
    rewrite (ClientFacts.run_cons_Ok _ _ _ _ E2).
    by apply (RenderFacts.run_duplicate _ [] n (<[k:=v]> ∅) (k, w)).
  - unfold Client.parse, Client.parse_xpath_to_gnmi_path.
    cbn [Client.check_origin Py.truthy]. cbn [mbind result_bind].
    unfold Render.render. cbn [map Simple.join]. unfold Render.render_element. cbn [fst snd].
    destruct (RenderFacts.simple_head n
                (Render.render_groups [[(k, v); (k, w)]]) Hn) as (c & s & E & Hc).
    rewrite (RenderFacts.strip_keeps _ _ _ E Hc)
      by apply RenderFacts.keeps_end_app, RenderFacts.keeps_end_groups.
    rewrite RenderFacts.findall_name_groups
      by (done || by repeat apply List.Forall_cons).
    assert (Client.run Client.init
              (("", n) :: flat_map Render.group_tokens [[(k, v); (k, w)]])
            = Raise DuplicateKey) as ->; [|done].
    rewrite (ClientFacts.run_cons_Ok _ _ _ _ E0).
    change (flat_map Render.group_tokens [[(k, v); (k, w)]])
      with (("[", "") :: Render.clause_tokens (k, v)
            ++ Render.junction_tokens
            ++ Render.clause_tokens (k, w) ++ [("]", "")]).
    destruct (RenderFacts.step_open_rest _ _ _ _ _ Hst0) as (st1 & E1 & Hst1 & _).
    rewrite (ClientFacts.run_cons_Ok _ _ _ _ E1).
    destruct (RenderFacts.run_clause _ _ _ _ (k, v) Hst1 Hv eq_refl)
      as (st2 & E2 & Hst2 & Hj2).
    rewrite (RenderFacts.run_app_Ok _ _ _ _ E2).
    destruct (RenderFacts.run_junction _ _ _ _ Hst2 Hj2) as (st3 & E3 & Hst3).
    rewrite (RenderFacts.run_app_Ok _ _ _ _ E3).
    by apply (RenderFacts.run_duplicate _ [] n (<[k:=v]> ∅) (k, w)).
Qed.

Lemma parse_duplicate_key_witness :
  Client.parse "intf[a='1'][a='2']" = Raise DuplicateKey
  ∧ Client.parse "intf[a='1' and a='2']" = Raise DuplicateKey.
Proof.
  apply (parse_duplicate_key "intf" "a" "1" "2");
    [reflexivity|..]; (split; [reflexivity|split; [discriminate|reflexivity]]).
Defined.

(** ** Filters that do not end *)

(** X11: an expression that ends after the key of a filter, or after its
    equals sign, fails with the hanging-key failure: for simple names
    [n] and [k], the parses of [n[k] and of [n[k=]. *)
Theorem parse_hanging_key (n k : string) :
  Simple.simple_name n = true → Simple.simple_name k = true →
  Client.parse (n +:+ "[" +:+ k) = Raise HangingKeyFilter
  ∧ Client.parse (n +:+ "[" +:+ k +:+ "=") = Raise HangingKeyFilter.
Proof.
  intros Hn Hk.
  assert (Client.key_truthy (Some k) = true) as Hkt
    by by apply SimpleFacts.simple_name_nonempty.
  split.
  - unfold Client.parse, Client.parse_xpath_to_gnmi_path.
    cbn [Client.check_origin Py.truthy]. cbn [mbind result_bind].
    destruct (RenderFacts.simple_head n ("[" +:+ k) Hn) as (c & s & E & Hc).
    rewrite (RenderFacts.strip_keeps _ _ _ E Hc)
      by (do 2 apply RenderFacts.keeps_end_app; by apply RenderFacts.keeps_end_name).
    rewrite RenderFacts.findall_open_key by done.
    erewrite ClientFacts.run_cons_Ok by by apply RenderFacts.step_name.
    erewrite ClientFacts.run_cons_Ok by reflexivity.
    erewrite ClientFacts.run_cons_Ok by by apply RenderFacts.step_key_first.
    cbn [Client.run mbind result_bind]. unfold Client.finish.
    cbn [Client.curr_key]. by rewrite Hkt.
  - unfold Client.parse, Client.parse_xpath_to_gnmi_path.
    cbn [Client.check_origin Py.truthy]. cbn [mbind result_bind].
    destruct (RenderFacts.simple_head n ("[" +:+ k +:+ "=") Hn) as (c & s & E & Hc).
    rewrite (RenderFacts.strip_keeps _ _ _ E Hc)
      by by do 3 apply RenderFacts.keeps_end_app.
    rewrite RenderFacts.findall_open_equals by done.
    erewrite ClientFacts.run_cons_Ok by by apply RenderFacts.step_name.
    erewrite ClientFacts.run_cons_Ok by reflexivity.
    erewrite ClientFacts.run_cons_Ok by by apply RenderFacts.step_key_first.
    erewrite ClientFacts.run_cons_Ok by by eapply RenderFacts.step_equals.
    cbn [Client.run mbind result_bind]. unfold Client.finish.
    cbn [Client.curr_key]. by rewrite Hkt.
Qed.

Lemma parse_hanging_key_witness :
  Client.parse "intf[a" = Raise HangingKeyFilter
  ∧ Client.parse "intf[a=" = Raise HangingKeyFilter.
Proof. apply (parse_hanging_key "intf" "a"); reflexivity. Defined.

(** X12: an expression that ends after a complete clause, its bracket
    left open, fails with the failure for an unterminated filter: for
    simple names [n] and [k] and a value [v] free of quotes, the parse
    of [n[k='v']. *)
Theorem parse_unclosed_filter (n k v : string) :
  Simple.simple_name n = true → Simple.simple_name k = true →
  Simple.all_chars Render.value_char v = true →
  Client.parse (n +:+ "[" +:+ k +:+ "=" +:+ Render.quoted v) = Raise UnterminatedXPath.
Proof.
  intros Hn Hk Hv.
  unfold Client.parse, Client.parse_xpath_to_gnmi_path.
  cbn [Client.check_origin Py.truthy]. cbn [mbind result_bind].
  destruct (RenderFacts.simple_head n ("[" +:+ k +:+ "=" +:+ Render.quoted v) Hn)
    as (c & s & E & Hc).
  rewrite (RenderFacts.strip_keeps _ _ _ E Hc)
    by (do 4 apply RenderFacts.keeps_end_app; apply RenderFacts.keeps_end_quoted).
  rewrite RenderFacts.findall_open_clause by done.
  erewrite ClientFacts.run_cons_Ok by by apply RenderFacts.step_name.
  erewrite ClientFacts.run_cons_Ok by reflexivity.
  erewrite ClientFacts.run_cons_Ok by by apply RenderFacts.step_key_first.
  erewrite ClientFacts.run_cons_Ok by by eapply RenderFacts.step_equals.
  erewrite ClientFacts.run_cons_Ok by by apply RenderFacts.step_value.
  reflexivity.
Qed.

Lemma parse_unclosed_filter_witness :
  Client.parse "intf[a='1'" = Raise UnterminatedXPath.
Proof. apply (parse_unclosed_filter "intf" "a" "1"); reflexivity. Defined.
